(** * PromptWizard: the client-side state layer of [static/app.js]

    A shallow embedding of the credential store (session guard, masking,
    provider switching, debounced backend writes, environment hydration)
    and of the reference-image stash, with the properties the
    specification states about them.

    Conventions of the embedding.
    - A JavaScript string is a [string]; [String.length] is [key.length].
    - [localStorage] and the [keyCache] object are [gmap string string];
      [getItem] is lookup ([None] is JavaScript's [null]), [setItem] is
      insert and [removeItem] is delete.
    - The handlers run to completion one at a time, so each one is a
      function from state to state.  [fetch] calls are appended to a log
      of requests; a response is an event of its own that runs the
      continuation the code registered.
    - [setTimeout] and [clearTimeout] work on an explicit timer table with
      a logical clock in milliseconds. *)

From stdpp Require Import base option list gmap strings fin_maps.
From Stdlib Require Import Ascii String Lia.

(** ** String primitives of the host language *)

Module JS.

(** [s.repeat(n)] *)
Fixpoint repeat (s : string) (n : nat) : string :=
  match n with
  | O => ""
  | S n' => s +:+ repeat s n'
  end.

(** [s.startsWith(p)] *)
Fixpoint startsWith (p s : string) : bool :=
  match p, s with
  | EmptyString, _ => true
  | String a p', String b s' => if Ascii.eqb a b then startsWith p' s' else false
  | String _ _, EmptyString => false
  end.

(** The first [n] code units of [s]. *)
Fixpoint take (n : nat) (s : string) : string :=
  match n, s with
  | S n', String a s' => String a (take n' s')
  | _, _ => ""
  end.

(** [s] without its first [n] code units. *)
Fixpoint drop (n : nat) (s : string) : string :=
  match n, s with
  | S n', String _ s' => drop n' s'
  | _, _ => s
  end.

(** [s.slice(b, e)] for non-negative indices [b] and [e]. *)
Definition slice (b e : nat) (s : string) : string :=
  take (e - b) (drop b s).

(** Truthiness of a string: only the empty string is falsy. *)
Definition truthy (s : string) : bool :=
  match s with
  | EmptyString => false
  | String _ _ => true
  end.

End JS.

(** ** Masking (source lines 34-37) *)

Definition maskKey (key : string) : string :=
  let length := Nat.max 6 (Nat.min (String.length key) 32) in
  JS.repeat "*" length.

(** Every character of [s] is the character [c]. *)
Fixpoint all_chars (c : ascii) (s : string) : Prop :=
  match s with
  | EmptyString => True
  | String a s' => a = c /\ all_chars c s'
  end.

(** ** Persistent storage and the session guard (source lines 8-32) *)

Abbreviation Storage := (gmap string string).

Definition STORAGE_PROVIDER : string := "prompt_alchemy_provider".
Definition STORAGE_SESSION : string := "prompt_alchemy_session".

(** The providers the page offers; [providerLabels] is keyed by their
    names. *)
Inductive Provider := gemini | openai | grok.

Definition providerName (p : Provider) : string :=
  match p with
  | gemini => "gemini"
  | openai => "openai"
  | grok => "grok"
  end.

Definition providerLabels (provider : string) : option string :=
  if String.eqb provider "gemini" then Some "Gemini"
  else if String.eqb provider "openai" then Some "OpenAI"
  else if String.eqb provider "grok" then Some "Grok"
  else None.

Definition getStorageKey (provider : string) : string :=
  provider +:+ "_api_key".

Definition clearLocalState (ls : Storage) : Storage :=
  delete STORAGE_PROVIDER
    (delete "grok_api_key"
       (delete "openai_api_key"
          (delete "gemini_api_key" ls))).

(** [storedSession !== appInstance].  [storedSession] is a string or
    [null]; [appInstance] is [document.body.dataset.appInstance], a string
    or, when the host page carries no such attribute, [undefined].  [null]
    and [undefined] are different values under [!==]. *)
Definition strict_neq (storedSession appInstance : option string) : bool :=
  match storedSession, appInstance with
  | Some a, Some b => negb (String.eqb a b)
  | _, _ => true
  end.

(** [setItem] stores the string conversion of its argument. *)
Definition to_stored (appInstance : option string) : string :=
  match appInstance with
  | Some s => s
  | None => "undefined"
  end.

Definition ensureFreshLocalStorage (appInstance : option string) (ls : Storage)
  : Storage :=
  let storedSession := ls !! STORAGE_SESSION in
  if strict_neq storedSession appInstance
  then <[STORAGE_SESSION := to_stored appInstance]> (clearLocalState ls)
  else ls.

(** Storage left behind by a previous backend instance ["A"]. *)
Definition stale_storage : Storage :=
  <[STORAGE_SESSION := "A"]>
    (<[STORAGE_PROVIDER := "openai"]>
       (<["openai_api_key" := "sk-12345"]> ∅)).

(** ** Masking: proofs *)

Lemma repeat_glyph_succ (c : ascii) (n : nat) :
  JS.repeat (String c EmptyString) (S n)
  = String c (JS.repeat (String c EmptyString) n).
Proof. reflexivity. Qed.

Lemma repeat_glyph_length (c : ascii) (n : nat) :
  String.length (JS.repeat (String c EmptyString) n) = n.
Proof.
  induction n as [|n IH]; [reflexivity |].
  rewrite repeat_glyph_succ. simpl. now rewrite IH.
Qed.

Lemma repeat_glyph_all (c : ascii) (n : nat) :
  all_chars c (JS.repeat (String c EmptyString) n).
Proof.
  induction n as [|n IH]; [exact I |].
  rewrite repeat_glyph_succ. simpl. auto.
Qed.

Lemma maskKey_length (key : string) :
  String.length (maskKey key) = Nat.max 6 (Nat.min (String.length key) 32).
Proof. unfold maskKey. apply repeat_glyph_length. Qed.

(** C2. For every non-empty key, [maskKey] returns a string made only of
    the glyph [*] whose length is the key's length clamped to [6, 32];
    keys of 32 or more characters are masked to exactly 32 glyphs. *)
Theorem maskKey_clamped (k : string) :
  k <> "" ->
  all_chars "*" (maskKey k)
  /\ String.length (maskKey k) = Nat.max 6 (Nat.min (String.length k) 32)
  /\ (32 <= String.length k -> String.length (maskKey k) = 32).
Proof.
  intros _. split; [apply repeat_glyph_all |].
  rewrite maskKey_length. split; [reflexivity | lia].
Qed.

Lemma maskKey_clamped_witness :
  all_chars "*" (maskKey "sk-12345")
  /\ String.length (maskKey "sk-12345")
     = Nat.max 6 (Nat.min (String.length "sk-12345") 32)
  /\ (32 <= String.length "sk-12345" -> String.length (maskKey "sk-12345") = 32).
Proof. apply (maskKey_clamped "sk-12345"). discriminate. Defined.

(** ** The session guard: proofs *)

Lemma strict_neq_false (stored : option string) (tok : string) :
  strict_neq stored (Some tok) = false <-> stored = Some tok.
Proof.
  destruct stored as [s|]; simpl; [| split; discriminate].
  destruct (String.eqb_spec s tok) as [->|Hne]; simpl.
  - split; auto.
  - split; [discriminate | intros [= ->]; contradiction].
Qed.

Lemma clearLocalState_provider_key (ls : Storage) (p : Provider) :
  clearLocalState ls !! getStorageKey (providerName p) = None.
Proof.
  unfold clearLocalState.
  destruct p; cbv [providerName getStorageKey];
    change ("gemini" +:+ "_api_key") with "gemini_api_key";
    change ("openai" +:+ "_api_key") with "openai_api_key";
    change ("grok" +:+ "_api_key") with "grok_api_key".
  - rewrite !lookup_delete_ne by discriminate. apply lookup_delete_eq.
  - rewrite !lookup_delete_ne by discriminate. apply lookup_delete_eq.
  - rewrite !lookup_delete_ne by discriminate. apply lookup_delete_eq.
Qed.

(** C3. With a recorded token that is absent or differs from the current
    one, the guard removes the credential entry of each of the three
    providers and the remembered provider selection and records the
    current token; with an equal recorded token storage is unchanged. *)
Theorem ensureFresh_wipes_or_keeps (tok : string) (ls : Storage) :
  (ls !! STORAGE_SESSION <> Some tok ->
     let ls' := ensureFreshLocalStorage (Some tok) ls in
     (forall p : Provider, ls' !! getStorageKey (providerName p) = None)
     /\ ls' !! STORAGE_PROVIDER = None
     /\ ls' !! STORAGE_SESSION = Some tok)
  /\ (ls !! STORAGE_SESSION = Some tok ->
        ensureFreshLocalStorage (Some tok) ls = ls).
Proof.
  unfold ensureFreshLocalStorage. split.
  - intros Hne.
    destruct (strict_neq (ls !! STORAGE_SESSION) (Some tok)) eqn:E.
    + cbn zeta. split; [| split].
      * intros p. rewrite lookup_insert_ne by (destruct p; discriminate).
        apply clearLocalState_provider_key.
      * rewrite lookup_insert_ne by discriminate.
        unfold clearLocalState. apply lookup_delete_eq.
      * apply lookup_insert_eq.
    + apply strict_neq_false in E. contradiction.
  - intros Heq.
    destruct (strict_neq (ls !! STORAGE_SESSION) (Some tok)) eqn:E;
      [| reflexivity].
    apply strict_neq_false in Heq. congruence.
Qed.

Lemma ensureFresh_wipes_or_keeps_witness :
  ((forall p : Provider,
      ensureFreshLocalStorage (Some "B") stale_storage
        !! getStorageKey (providerName p) = None)
   /\ ensureFreshLocalStorage (Some "B") stale_storage !! STORAGE_PROVIDER = None
   /\ ensureFreshLocalStorage (Some "B") stale_storage !! STORAGE_SESSION
      = Some "B")
  /\ ensureFreshLocalStorage (Some "A") stale_storage = stale_storage.
Proof.
  split.
  - apply (proj1 (ensureFresh_wipes_or_keeps "B" stale_storage)).
    vm_compute. discriminate.
  - apply (proj2 (ensureFresh_wipes_or_keeps "A" stale_storage)).
    vm_compute. reflexivity.
Defined.

(** Without an instance attribute on the host page the comparison never
    succeeds: every load wipes, and the string ["undefined"] is recorded. *)
Remark ensureFresh_without_instance (ls : Storage) :
  ensureFreshLocalStorage None ls
  = <[STORAGE_SESSION := "undefined"]> (clearLocalState ls).
Proof.
  unfold ensureFreshLocalStorage. destruct (ls !! STORAGE_SESSION); reflexivity.
Qed.

(** The scenario of the specification: empty storage and token ["A"],
    then a load with token ["B"] after a credential was stored. *)
Example session_scenario :
  let first := ensureFreshLocalStorage (Some "A") ∅ in
  let used := <["openai_api_key" := "sk-12345"]> first in
  let second := ensureFreshLocalStorage (Some "B") used in
  first !! STORAGE_SESSION = Some "A"
  /\ ensureFreshLocalStorage (Some "A") used = used
  /\ second !! "openai_api_key" = None
  /\ second !! STORAGE_SESSION = Some "B".
Proof. cbn zeta. repeat split; vm_compute; reflexivity. Qed.

(** ** The session guard: further properties *)

Lemma ensureFresh_wipes_or_keeps_aux (tok : string) (ls : Storage) :
  (ls !! STORAGE_SESSION <> Some tok ->
     ensureFreshLocalStorage (Some tok) ls
     = <[STORAGE_SESSION := tok]> (clearLocalState ls))
  /\ (ls !! STORAGE_SESSION = Some tok ->
        ensureFreshLocalStorage (Some tok) ls = ls).
Proof.
  unfold ensureFreshLocalStorage.
  destruct (strict_neq (ls !! STORAGE_SESSION) (Some tok)) eqn:E.
  - split; [reflexivity |]. intros H. apply strict_neq_false in H. congruence.
  - apply strict_neq_false in E. split; [contradiction | reflexivity].
Qed.

(** Running the guard again with the same instance changes nothing more. *)
Theorem ensureFresh_idempotent (appInstance : option string) (ls : Storage) :
  ensureFreshLocalStorage appInstance
    (ensureFreshLocalStorage appInstance ls)
  = ensureFreshLocalStorage appInstance ls.
Proof.
  destruct appInstance as [tok|].
  - destruct (decide (ls !! STORAGE_SESSION = Some tok)) as [E|E].
    + rewrite !(proj2 (ensureFresh_wipes_or_keeps_aux tok ls) E). reflexivity.
    + rewrite (proj1 (ensureFresh_wipes_or_keeps_aux tok ls) E).
      apply (proj2 (ensureFresh_wipes_or_keeps_aux tok _)).
      apply lookup_insert_eq.
  - rewrite !ensureFresh_without_instance. apply map_eq. intros k.
    unfold clearLocalState.
    repeat (rewrite lookup_insert || rewrite lookup_delete).
    repeat case_decide; reflexivity.
Qed.

(** The entries the guard can touch are the three credential entries,
    the remembered selection and the recorded token; every other entry
    of storage is as before. *)
Theorem ensureFresh_other_entries (appInstance : option string)
    (ls : Storage) (k : string) :
  k <> "gemini_api_key" -> k <> "openai_api_key" -> k <> "grok_api_key" ->
  k <> STORAGE_PROVIDER -> k <> STORAGE_SESSION ->
  ensureFreshLocalStorage appInstance ls !! k = ls !! k.
Proof.
  intros H1 H2 H3 H4 H5. unfold ensureFreshLocalStorage.
  destruct (strict_neq _ _); [| reflexivity].
  rewrite lookup_insert_ne by congruence.
  unfold clearLocalState. rewrite !lookup_delete_ne by congruence.
  reflexivity.
Qed.

Lemma ensureFresh_other_entries_witness :
  ensureFreshLocalStorage (Some "B") (<["theme" := "dark"]> stale_storage)
    !! "theme"
  = <["theme" := "dark"]> stale_storage !! "theme".
Proof.
  apply (ensureFresh_other_entries (Some "B")
           (<["theme" := "dark"]> stale_storage) "theme"); discriminate.
Defined.

(** ** The credential store: state *)

Module KeyStore.

(** A call of [fetch]: the credential read of [hydrateFromEnv] or the
    credential write of the debounce timer. *)
Inductive Request :=
| GetKey (provider : string)
| PostKey (provider api_key : string).

(** An entry of the timer table: the handle [setTimeout] returned, the
    time at which it is due, and the variables its callback closes over
    (the [provider] and [key] parameters of [scheduleKeySync]). *)
Record Timer := {
  timer_id : nat;
  timer_due : nat;
  timer_provider : string;
  timer_key : string
}.

(** The page: storage, the script's variables, the DOM properties it
    reads and writes, the timer table and the network log. *)
Record Page := {
  localStorage : Storage;
  keyCache : gmap string string;
  providerInput_value : string;
  apiKeyInput_value : string;
  apiKeyVisible_value : string;
  apiKeyVisible_placeholder : string;
  apiKeyVisible_masked : string;      (* [apiKeyVisible.dataset.masked] *)
  keyUpdateTimer : option nat;        (* [None] is [undefined] *)
  clock : nat;
  nextTimerId : nat;
  pending : list Timer;
  sent : list Request;
  awaiting : list string             (* reads without a response so far *)
}.

Definition set_localStorage (v : Storage) (pg : Page) : Page :=
  {| localStorage := v; keyCache := keyCache pg;
     providerInput_value := providerInput_value pg;
     apiKeyInput_value := apiKeyInput_value pg;
     apiKeyVisible_value := apiKeyVisible_value pg;
     apiKeyVisible_placeholder := apiKeyVisible_placeholder pg;
     apiKeyVisible_masked := apiKeyVisible_masked pg;
     keyUpdateTimer := keyUpdateTimer pg; clock := clock pg;
     nextTimerId := nextTimerId pg; pending := pending pg; sent := sent pg;
     awaiting := awaiting pg |}.

Definition set_keyCache (v : gmap string string) (pg : Page) : Page :=
  {| localStorage := localStorage pg; keyCache := v;
     providerInput_value := providerInput_value pg;
     apiKeyInput_value := apiKeyInput_value pg;
     apiKeyVisible_value := apiKeyVisible_value pg;
     apiKeyVisible_placeholder := apiKeyVisible_placeholder pg;
     apiKeyVisible_masked := apiKeyVisible_masked pg;
     keyUpdateTimer := keyUpdateTimer pg; clock := clock pg;
     nextTimerId := nextTimerId pg; pending := pending pg; sent := sent pg;
     awaiting := awaiting pg |}.

Definition set_providerInput_value (v : string) (pg : Page) : Page :=
  {| localStorage := localStorage pg; keyCache := keyCache pg;
     providerInput_value := v; apiKeyInput_value := apiKeyInput_value pg;
     apiKeyVisible_value := apiKeyVisible_value pg;
     apiKeyVisible_placeholder := apiKeyVisible_placeholder pg;
     apiKeyVisible_masked := apiKeyVisible_masked pg;
     keyUpdateTimer := keyUpdateTimer pg; clock := clock pg;
     nextTimerId := nextTimerId pg; pending := pending pg; sent := sent pg;
     awaiting := awaiting pg |}.

Definition set_apiKeyInput_value (v : string) (pg : Page) : Page :=
  {| localStorage := localStorage pg; keyCache := keyCache pg;
     providerInput_value := providerInput_value pg; apiKeyInput_value := v;
     apiKeyVisible_value := apiKeyVisible_value pg;
     apiKeyVisible_placeholder := apiKeyVisible_placeholder pg;
     apiKeyVisible_masked := apiKeyVisible_masked pg;
     keyUpdateTimer := keyUpdateTimer pg; clock := clock pg;
     nextTimerId := nextTimerId pg; pending := pending pg; sent := sent pg;
     awaiting := awaiting pg |}.

Definition set_apiKeyVisible_value (v : string) (pg : Page) : Page :=
  {| localStorage := localStorage pg; keyCache := keyCache pg;
     providerInput_value := providerInput_value pg;
     apiKeyInput_value := apiKeyInput_value pg; apiKeyVisible_value := v;
     apiKeyVisible_placeholder := apiKeyVisible_placeholder pg;
     apiKeyVisible_masked := apiKeyVisible_masked pg;
     keyUpdateTimer := keyUpdateTimer pg; clock := clock pg;
     nextTimerId := nextTimerId pg; pending := pending pg; sent := sent pg;
     awaiting := awaiting pg |}.

Definition set_apiKeyVisible_placeholder (v : string) (pg : Page) : Page :=
  {| localStorage := localStorage pg; keyCache := keyCache pg;
     providerInput_value := providerInput_value pg;
     apiKeyInput_value := apiKeyInput_value pg;
     apiKeyVisible_value := apiKeyVisible_value pg;
     apiKeyVisible_placeholder := v;
     apiKeyVisible_masked := apiKeyVisible_masked pg;
     keyUpdateTimer := keyUpdateTimer pg; clock := clock pg;
     nextTimerId := nextTimerId pg; pending := pending pg; sent := sent pg;
     awaiting := awaiting pg |}.

Definition set_apiKeyVisible_masked (v : string) (pg : Page) : Page :=
  {| localStorage := localStorage pg; keyCache := keyCache pg;
     providerInput_value := providerInput_value pg;
     apiKeyInput_value := apiKeyInput_value pg;
     apiKeyVisible_value := apiKeyVisible_value pg;
     apiKeyVisible_placeholder := apiKeyVisible_placeholder pg;
     apiKeyVisible_masked := v; keyUpdateTimer := keyUpdateTimer pg;
     clock := clock pg; nextTimerId := nextTimerId pg; pending := pending pg;
     sent := sent pg; awaiting := awaiting pg |}.

Definition set_keyUpdateTimer (v : option nat) (pg : Page) : Page :=
  {| localStorage := localStorage pg; keyCache := keyCache pg;
     providerInput_value := providerInput_value pg;
     apiKeyInput_value := apiKeyInput_value pg;
     apiKeyVisible_value := apiKeyVisible_value pg;
     apiKeyVisible_placeholder := apiKeyVisible_placeholder pg;
     apiKeyVisible_masked := apiKeyVisible_masked pg; keyUpdateTimer := v;
     clock := clock pg; nextTimerId := nextTimerId pg; pending := pending pg;
     sent := sent pg; awaiting := awaiting pg |}.

Definition set_clock (v : nat) (pg : Page) : Page :=
  {| localStorage := localStorage pg; keyCache := keyCache pg;
     providerInput_value := providerInput_value pg;
     apiKeyInput_value := apiKeyInput_value pg;
     apiKeyVisible_value := apiKeyVisible_value pg;
     apiKeyVisible_placeholder := apiKeyVisible_placeholder pg;
     apiKeyVisible_masked := apiKeyVisible_masked pg;
     keyUpdateTimer := keyUpdateTimer pg; clock := v;
     nextTimerId := nextTimerId pg; pending := pending pg; sent := sent pg;
     awaiting := awaiting pg |}.

Definition set_nextTimerId (v : nat) (pg : Page) : Page :=
  {| localStorage := localStorage pg; keyCache := keyCache pg;
     providerInput_value := providerInput_value pg;
     apiKeyInput_value := apiKeyInput_value pg;
     apiKeyVisible_value := apiKeyVisible_value pg;
     apiKeyVisible_placeholder := apiKeyVisible_placeholder pg;
     apiKeyVisible_masked := apiKeyVisible_masked pg;
     keyUpdateTimer := keyUpdateTimer pg; clock := clock pg;
     nextTimerId := v; pending := pending pg; sent := sent pg;
     awaiting := awaiting pg |}.

Definition set_pending (v : list Timer) (pg : Page) : Page :=
  {| localStorage := localStorage pg; keyCache := keyCache pg;
     providerInput_value := providerInput_value pg;
     apiKeyInput_value := apiKeyInput_value pg;
     apiKeyVisible_value := apiKeyVisible_value pg;
     apiKeyVisible_placeholder := apiKeyVisible_placeholder pg;
     apiKeyVisible_masked := apiKeyVisible_masked pg;
     keyUpdateTimer := keyUpdateTimer pg; clock := clock pg;
     nextTimerId := nextTimerId pg; pending := v; sent := sent pg;
     awaiting := awaiting pg |}.

Definition set_sent (v : list Request) (pg : Page) : Page :=
  {| localStorage := localStorage pg; keyCache := keyCache pg;
     providerInput_value := providerInput_value pg;
     apiKeyInput_value := apiKeyInput_value pg;
     apiKeyVisible_value := apiKeyVisible_value pg;
     apiKeyVisible_placeholder := apiKeyVisible_placeholder pg;
     apiKeyVisible_masked := apiKeyVisible_masked pg;
     keyUpdateTimer := keyUpdateTimer pg; clock := clock pg;
     nextTimerId := nextTimerId pg; pending := pending pg; sent := v;
     awaiting := awaiting pg |}.

Definition set_awaiting (v : list string) (pg : Page) : Page :=
  {| localStorage := localStorage pg; keyCache := keyCache pg;
     providerInput_value := providerInput_value pg;
     apiKeyInput_value := apiKeyInput_value pg;
     apiKeyVisible_value := apiKeyVisible_value pg;
     apiKeyVisible_placeholder := apiKeyVisible_placeholder pg;
     apiKeyVisible_masked := apiKeyVisible_masked pg;
     keyUpdateTimer := keyUpdateTimer pg; clock := clock pg;
     nextTimerId := nextTimerId pg; pending := pending pg; sent := sent pg;
     awaiting := v |}.

(** ** The credential store: operations (source lines 39-124) *)

Definition getItem (k : string) (pg : Page) : option string :=
  localStorage pg !! k.

Definition setItem (k v : string) (pg : Page) : Page :=
  set_localStorage (<[k := v]> (localStorage pg)) pg.

Definition removeItem (k : string) (pg : Page) : Page :=
  set_localStorage (delete k (localStorage pg)) pg.

Definition applyMaskedKey (provider key : string) (pg : Page) : Page :=
  if negb (JS.truthy key) then pg
  else
    let pg := set_keyCache (<[provider := key]> (keyCache pg)) pg in
    let pg := set_apiKeyInput_value key pg in
    let pg := set_apiKeyVisible_value (maskKey key) pg in
    set_apiKeyVisible_masked "true" pg.

(** What the backend's answer to a credential read can be.  The body,
    when it parses as JSON, has the shape of the endpoint's contract: a
    falsy value, or an object whose [api_key] is absent or a string. *)
Inductive Data :=
| DataFalsy
| DataObject (api_key : option string).

Inductive Response :=
| NetworkError                              (* [fetch] rejects *)
| Reply (status : nat) (body : option Data). (* [None]: [res.json()] rejects *)

(** The call of [fetch] in [hydrateFromEnv]; the promise chain runs when
    the response arrives, see [hydrateFromEnv_then]. *)
Definition hydrateFromEnv (provider : string) (pg : Page) : Page :=
  let pg := set_sent (sent pg ++ [GetKey provider]) pg in
  set_awaiting (awaiting pg ++ [provider]) pg.

(** The promise chain of [hydrateFromEnv]: [res.json()], the callback on
    the parsed data, and the empty [catch].  The status of the reply is
    not read. *)
Definition hydrateFromEnv_then (provider : string) (resp : Response)
    (pg : Page) : Page :=
  match resp with
  | NetworkError => pg
  | Reply _ None => pg
  | Reply _ (Some DataFalsy) => pg
  | Reply _ (Some (DataObject None)) => pg
  | Reply _ (Some (DataObject (Some api_key))) =>
      if negb (JS.truthy api_key) then pg
      else
        let pg := applyMaskedKey provider api_key pg in
        setItem (getStorageKey provider) api_key pg
  end.

(** [`Paste ${providerLabels[provider]} API Key`] *)
Definition placeholderFor (provider : string) : string :=
  "Paste " +:+ default "undefined" (providerLabels provider) +:+ " API Key".

Definition syncProvider (provider : string) (pg : Page) : Page :=
  let pg := set_providerInput_value provider pg in
  let pg := setItem STORAGE_PROVIDER provider pg in
  let storedKey := default "" (getItem (getStorageKey provider) pg) in
  let pg := set_apiKeyVisible_placeholder (placeholderFor provider) pg in
  if JS.truthy storedKey then applyMaskedKey provider storedKey pg
  else
    let pg := set_apiKeyVisible_value "" pg in
    let pg := set_apiKeyInput_value "" pg in
    let pg := set_apiKeyVisible_masked "false" pg in
    hydrateFromEnv provider pg.

(** [clearTimeout(id)]: the entry, if still in the table, is dropped. *)
Definition clearTimeout (id : nat) (pg : Page) : Page :=
  set_pending (filter (fun t => timer_id t <> id) (pending pg)) pg.

(** [setTimeout(callback, delay)] for the callback of [scheduleKeySync],
    which closes over [provider] and [key]; returns the new handle. *)
Definition setTimeout (provider key : string) (delay : nat) (pg : Page)
  : nat * Page :=
  let id := nextTimerId pg in
  let t := {| timer_id := id; timer_due := clock pg + delay;
              timer_provider := provider; timer_key := key |} in
  (id, set_nextTimerId (S id) (set_pending (pending pg ++ [t]) pg)).

Definition scheduleKeySync (provider key : string) (pg : Page) : Page :=
  let pg :=
    match keyUpdateTimer pg with
    | Some (S _ as id) => clearTimeout id pg
    | _ => pg                         (* [undefined] and 0 are falsy *)
    end in
  let '(id, pg) := setTimeout provider key 400 pg in
  set_keyUpdateTimer (Some id) pg.

(** The timer's callback: one credential write; its outcome is ignored. *)
Definition timer_callback (t : Timer) (pg : Page) : Page :=
  set_sent (sent pg ++ [PostKey (timer_provider t) (timer_key t)]) pg.

(** The [change] handler of the provider selector. *)
Definition onProviderChange (value : string) (pg : Page) : Page :=
  syncProvider value pg.

(** The [focus] handler of the credential field. *)
Definition onFocus (pg : Page) : Page :=
  if String.eqb (apiKeyVisible_masked pg) "true"
  then set_apiKeyVisible_masked "false" (set_apiKeyVisible_value "" pg)
  else pg.

(** The [blur] handler of the credential field. *)
Definition onBlur (pg : Page) : Page :=
  let provider := providerInput_value pg in
  match keyCache pg !! provider with
  | Some key =>
      if negb (JS.truthy (apiKeyVisible_value pg)) && JS.truthy key
      then applyMaskedKey provider key pg
      else pg
  | None => pg
  end.

(** The [input] handler of the credential field; [typed] is the content
    of the field after the edit, which is what [event.target.value]
    reads. *)
Definition onInput (typed : string) (pg : Page) : Page :=
  let pg := set_apiKeyVisible_value typed pg in
  let key := apiKeyVisible_value pg in
  let provider := providerInput_value pg in
  if negb (JS.truthy key) then
    let pg := set_apiKeyInput_value "" pg in
    let pg := set_keyCache (<[provider := ""]> (keyCache pg)) pg in
    removeItem (getStorageKey provider) pg
  else
    let pg := set_keyCache (<[provider := key]> (keyCache pg)) pg in
    let pg := set_apiKeyInput_value key pg in
    let pg := setItem (getStorageKey provider) key pg in
    scheduleKeySync provider key pg.

(** ** Time, page loads and the event loop *)

(** Timers that are due run in the order of their due times, and in the
    order of their creation when these are equal. *)
Fixpoint insert_by_due (t : Timer) (l : list Timer) : list Timer :=
  match l with
  | [] => [t]
  | u :: l' =>
      if Nat.ltb (timer_due u) (timer_due t) then u :: insert_by_due t l'
      else t :: u :: l'
  end.

Definition by_due (l : list Timer) : list Timer :=
  foldr insert_by_due [] l.

(** [dt] milliseconds pass with no other event: every timer that becomes
    due runs its callback and leaves the table. *)
Definition elapse (dt : nat) (pg : Page) : Page :=
  let now := clock pg + dt in
  let due := filter (fun t => timer_due t <= now) (pending pg) in
  let pg := set_pending (filter (fun t => ~ timer_due t <= now) (pending pg)) pg in
  let pg := foldl (fun pg t => timer_callback t pg) pg (by_due due) in
  set_clock now pg.

(** The script's top level (source lines 2-15 and 86-90), run on every
    load of the page: [ls] is what storage holds, [now] the time, [log]
    the requests made by earlier loads.  The five DOM properties start
    with the empty string here; [syncProvider] assigns all of them before
    any handler can read them. *)
Definition load (appInstance : option string) (ls : Storage) (now : nat)
    (log : list Request) : Page :=
  let pg :=
    {| localStorage := ensureFreshLocalStorage appInstance ls;
       keyCache := ∅;
       providerInput_value := ""; apiKeyInput_value := "";
       apiKeyVisible_value := ""; apiKeyVisible_placeholder := "";
       apiKeyVisible_masked := "";
       keyUpdateTimer := None;
       clock := now; nextTimerId := 1; pending := [];
       sent := log; awaiting := [] |} in
  let initialProvider :=
    match getItem STORAGE_PROVIDER pg with
    | Some s => if JS.truthy s then s else "gemini"
    | None => "gemini"
    end in
  syncProvider initialProvider pg.

Inductive Event :=
| Reload (appInstance : option string)
| ProviderChange (p : Provider)
| Focus
| Blur
| Input (typed : string)
| Elapse (dt : nat)
| Respond (i : nat) (resp : Response). (* the answer to the [i]-th open read *)

Definition step (pg : Page) (e : Event) : Page :=
  match e with
  | Reload appInstance => load appInstance (localStorage pg) (clock pg) (sent pg)
  | ProviderChange p => onProviderChange (providerName p) pg
  | Focus => onFocus pg
  | Blur => onBlur pg
  | Input typed => onInput typed pg
  | Elapse dt => elapse dt pg
  | Respond i resp =>
      match awaiting pg !! i with
      | Some provider =>
          hydrateFromEnv_then provider resp
            (set_awaiting (delete i (awaiting pg)) pg)
      | None => pg
      end
  end.

Definition run (evs : list Event) (pg : Page) : Page := foldl step pg evs.

(** The states of the page in a browser profile that starts with empty
    storage: a first load, then any events. *)
Definition reachable (pg : Page) : Prop :=
  exists appInstance evs, pg = run evs (load appInstance ∅ 0 []).

(** The credential writes among a list of requests. *)
Definition writes (l : list Request) : list (string * string) :=
  omap (fun r => match r with
                 | PostKey p k => Some (p, k)
                 | GetKey _ => None
                 end) l.

(** ** Predicates and instances used in the statements *)

(** The last character of [s] is [c]. *)
Fixpoint ends_with (c : ascii) (s : string) : bool :=
  match s with
  | EmptyString => false
  | String a EmptyString => Ascii.eqb a c
  | String _ s' => ends_with c s'
  end.

(** No credential entry of storage holds the empty string. *)
Definition creds_nonempty (ls : Storage) : Prop :=
  forall q, ls !! getStorageKey q <> Some "".

(** The timer table holds at most the timer [keyUpdateTimer] names, which
    is not yet due. *)
Definition timers_wf (pg : Page) : Prop :=
  1 <= nextTimerId pg
  /\ (pending pg = []
      \/ exists t, pending pg = [t]
                   /\ keyUpdateTimer pg = Some (timer_id t)
                   /\ 1 <= timer_id t
                   /\ clock pg < timer_due t).

(** The part of the page that [setTimeout] and [clearTimeout] work on. *)
Definition timer_state (pg : Page) : option nat * nat * nat * list Timer :=
  (keyUpdateTimer pg, clock pg, nextTimerId pg, pending pg).

(** The timer [scheduleKeySync] sets for the pair [(provider, key)]. *)
Definition sync_timer (id due : nat) (provider key : string) : Timer :=
  {| timer_id := id; timer_due := due;
     timer_provider := provider; timer_key := key |}.

(** The request a timer's callback makes. *)
Definition write_of (t : Timer) : Request :=
  PostKey (timer_provider t) (timer_key t).

(** The answers from which the callback takes no credential. *)
Inductive no_credential : Response -> Prop :=
| nc_network : no_credential NetworkError
| nc_not_json status : no_credential (Reply status None)
| nc_falsy status : no_credential (Reply status (Some DataFalsy))
| nc_absent status : no_credential (Reply status (Some (DataObject None)))
| nc_empty status : no_credential (Reply status (Some (DataObject (Some "")))).

Definition invariant (pg : Page) : Prop :=
  creds_nonempty (localStorage pg) /\ timers_wf pg.

(** The active provider and the remembered selection are among the
    three providers.  None of their names is a property that the object
    [keyCache] inherits, so that reading and writing [keyCache[provider]]
    is lookup and insert on a finite map. *)
Definition provider_known (pg : Page) : Prop :=
  (exists p, providerInput_value pg = providerName p)
  /\ (forall s, localStorage pg !! STORAGE_PROVIDER = Some s ->
                exists p, s = providerName p).

(** The events that neither edit the field nor reload the page. *)
Definition quiet (e : Event) : bool :=
  match e with
  | Reload _ | Input _ => false
  | _ => true
  end.

(** The time that passes during a list of events. *)
Definition elapsed (evs : list Event) : nat :=
  foldr (fun e n => match e with Elapse dt => dt + n | _ => n end) 0 evs.

(** The failures as the specification lists them: a network error, a
    status outside 200-299, or a body that is not JSON. *)
Definition failed_read (resp : Response) : Prop :=
  match resp with
  | NetworkError => True
  | Reply status body => ~ (200 <= status < 300) \/ body = None
  end.

(** A first load for backend instance ["A"], then the selector is set
    to OpenAI. *)
Definition openai_page : Page :=
  run [ProviderChange openai] (load (Some "A") ∅ 0 []).

(** Storage after a first load and an edit of the OpenAI credential. *)
Definition openai_keyed : Page := run [Input "sk-12345"] openai_page.

Arguments applyMaskedKey : simpl never.
Arguments syncProvider : simpl never.
Arguments scheduleKeySync : simpl never.
Arguments elapse : simpl never.
Arguments onInput : simpl never.
Arguments load : simpl never.

(** ** Storage keys do not collide *)

Lemma append_String (a : ascii) (s t : string) :
  String a s +:+ t = String a (s +:+ t).
Proof. reflexivity. Qed.

Lemma getStorageKey_ends_with_y (q : string) :
  ends_with "y" (getStorageKey q) = true.
Proof.
  unfold getStorageKey. induction q as [|a q IH]; [reflexivity |].
  rewrite append_String.
  destruct (q +:+ "_api_key") eqn:E; [discriminate IH | exact IH].
Qed.

Lemma getStorageKey_not_provider (q : string) :
  getStorageKey q <> STORAGE_PROVIDER.
Proof.
  intros H. pose proof (getStorageKey_ends_with_y q) as E.
  rewrite H in E. discriminate E.
Qed.

Lemma getStorageKey_not_session (q : string) :
  getStorageKey q <> STORAGE_SESSION.
Proof.
  intros H. pose proof (getStorageKey_ends_with_y q) as E.
  rewrite H in E. discriminate E.
Qed.

Lemma truthy_nonempty (s : string) : JS.truthy s = true <-> s <> "".
Proof. destruct s; simpl; split; congruence. Qed.

(** ** Invariants of the credential store *)

Lemma timers_wf_ext (pg pg' : Page) :
  timer_state pg' = timer_state pg -> timers_wf pg -> timers_wf pg'.
Proof.
  unfold timer_state, timers_wf. intros [= -> -> -> ->]. auto.
Qed.

Lemma creds_nonempty_insert (ls : Storage) (k v : string) :
  (v <> "" \/ forall q, getStorageKey q <> k) ->
  creds_nonempty ls -> creds_nonempty (<[k := v]> ls).
Proof.
  intros Hkv Hls q. rewrite lookup_insert.
  destruct (decide (k = getStorageKey q)) as [->|Hne]; [| apply Hls].
  destruct Hkv as [Hv | Hk]; [congruence |].
  exfalso. eapply Hk. reflexivity.
Qed.

Lemma creds_nonempty_delete (ls : Storage) (k : string) :
  creds_nonempty ls -> creds_nonempty (delete k ls).
Proof.
  intros Hls q. rewrite lookup_delete.
  destruct (decide (k = getStorageKey q)); [discriminate | apply Hls].
Qed.

Lemma creds_nonempty_ensureFresh (inst : option string) (ls : Storage) :
  creds_nonempty ls -> creds_nonempty (ensureFreshLocalStorage inst ls).
Proof.
  intros Hls. unfold ensureFreshLocalStorage.
  destruct (strict_neq _ _); [| exact Hls].
  apply creds_nonempty_insert.
  - right. apply getStorageKey_not_session.
  - unfold clearLocalState. repeat apply creds_nonempty_delete. exact Hls.
Qed.

Lemma timer_state_inv (pg : Page) (k : option nat) (c n : nat)
    (l : list Timer) :
  timer_state pg = (k, c, n, l) ->
  keyUpdateTimer pg = k /\ clock pg = c /\ nextTimerId pg = n /\ pending pg = l.
Proof. unfold timer_state. intros [= -> -> -> ->]. auto. Qed.

(** *** What each operation leaves alone *)

Lemma applyMaskedKey_frame (provider key : string) (pg : Page) :
  localStorage (applyMaskedKey provider key pg) = localStorage pg
  /\ timer_state (applyMaskedKey provider key pg) = timer_state pg
  /\ sent (applyMaskedKey provider key pg) = sent pg
  /\ awaiting (applyMaskedKey provider key pg) = awaiting pg
  /\ providerInput_value (applyMaskedKey provider key pg)
     = providerInput_value pg.
Proof. unfold applyMaskedKey. destruct (JS.truthy key); simpl; auto. Qed.

Lemma applyMaskedKey_truthy (provider key : string) (pg : Page) :
  key <> "" ->
  let pg' := applyMaskedKey provider key pg in
  keyCache pg' = <[provider := key]> (keyCache pg)
  /\ apiKeyInput_value pg' = key
  /\ apiKeyVisible_value pg' = maskKey key
  /\ apiKeyVisible_masked pg' = "true".
Proof.
  intros Hk. apply truthy_nonempty in Hk. unfold applyMaskedKey.
  rewrite Hk. simpl. auto.
Qed.

Lemma syncProvider_frame (provider : string) (pg : Page) :
  localStorage (syncProvider provider pg)
  = <[STORAGE_PROVIDER := provider]> (localStorage pg)
  /\ timer_state (syncProvider provider pg) = timer_state pg
  /\ writes (sent (syncProvider provider pg)) = writes (sent pg)
  /\ providerInput_value (syncProvider provider pg) = provider.
Proof.
  unfold syncProvider.
  match goal with |- context [JS.truthy ?s] => destruct (JS.truthy s) end.
  - match goal with |- context [applyMaskedKey ?p ?k ?g] =>
      destruct (applyMaskedKey_frame p k g) as (-> & -> & -> & _ & ->) end.
    simpl. auto.
  - simpl. repeat split; try reflexivity.
    unfold writes. rewrite omap_app. simpl. apply app_nil_r.
Qed.

(** *** The debounce timer *)

(** Scheduling replaces whatever is pending by one new timer. *)
Lemma scheduleKeySync_timers (provider key : string) (pg : Page) :
  timers_wf pg ->
  timer_state (scheduleKeySync provider key pg)
  = (Some (nextTimerId pg), clock pg, S (nextTimerId pg),
     [sync_timer (nextTimerId pg) (clock pg + 400) provider key]).
Proof.
  intros [Hn [Hp | (t & Hp & Hk & Hid & Hdue)]];
    unfold scheduleKeySync, timer_state.
  - destruct (keyUpdateTimer pg) as [[|id]|]; simpl; rewrite ?Hp; reflexivity.
  - rewrite Hk. destruct (timer_id t) as [|id] eqn:E; [lia |].
    simpl. rewrite Hp. rewrite filter_cons, filter_nil.
    destruct (decide (timer_id t <> S id)) as [Hne|_]; [congruence |].
    reflexivity.
Qed.

Lemma scheduleKeySync_frame (provider key : string) (pg : Page) :
  localStorage (scheduleKeySync provider key pg) = localStorage pg
  /\ keyCache (scheduleKeySync provider key pg) = keyCache pg
  /\ sent (scheduleKeySync provider key pg) = sent pg
  /\ providerInput_value (scheduleKeySync provider key pg)
     = providerInput_value pg.
Proof.
  unfold scheduleKeySync.
  destruct (keyUpdateTimer pg) as [[|id]|]; simpl; auto.
Qed.

(** A non-empty edit: both caches take the value and one timer is set. *)
Lemma onInput_nonempty (typed : string) (pg : Page) :
  typed <> "" -> timers_wf pg ->
  let pg' := onInput typed pg in
  timer_state pg'
  = (Some (nextTimerId pg), clock pg, S (nextTimerId pg),
     [sync_timer (nextTimerId pg) (clock pg + 400)
        (providerInput_value pg) typed])
  /\ sent pg' = sent pg
  /\ providerInput_value pg' = providerInput_value pg
  /\ keyCache pg' = <[providerInput_value pg := typed]> (keyCache pg)
  /\ localStorage pg'
     = <[getStorageKey (providerInput_value pg) := typed]> (localStorage pg).
Proof.
  intros Ht Hwf. apply truthy_nonempty in Ht.
  unfold onInput. cbn. rewrite Ht. cbn.
  match goal with |- context [scheduleKeySync ?p ?k ?g] =>
    destruct (scheduleKeySync_frame p k g) as (-> & -> & -> & ->);
    rewrite (scheduleKeySync_timers p k g) by (eapply timers_wf_ext; [| exact Hwf]; reflexivity)
  end.
  simpl. auto.
Qed.

(** Clearing the field: both caches drop the value; the timer table and
    [keyUpdateTimer] are not touched. *)
Lemma onInput_empty (pg : Page) :
  let pg' := onInput "" pg in
  timer_state pg' = timer_state pg
  /\ sent pg' = sent pg
  /\ providerInput_value pg' = providerInput_value pg
  /\ keyCache pg' = <[providerInput_value pg := ""]> (keyCache pg)
  /\ localStorage pg'
     = delete (getStorageKey (providerInput_value pg)) (localStorage pg).
Proof. unfold onInput. simpl. auto. Qed.

(** *** The passing of time *)

Lemma run_callbacks (l : list Timer) (pg : Page) :
  foldl (fun pg t => timer_callback t pg) pg l
  = set_sent (sent pg ++ map write_of l) pg.
Proof.
  revert pg. induction l as [|t l IH]; intros pg; simpl.
  - rewrite app_nil_r. destruct pg; reflexivity.
  - rewrite IH. unfold timer_callback. destruct pg; simpl.
    unfold set_sent; simpl. rewrite <- app_assoc. reflexivity.
Qed.

Lemma elapse_unfold (dt : nat) (pg : Page) :
  elapse dt pg
  = set_clock (clock pg + dt)
      (set_sent
         (sent pg
          ++ map write_of
               (by_due (filter (fun t => timer_due t <= clock pg + dt)
                          (pending pg))))
         (set_pending
            (filter (fun t => ~ timer_due t <= clock pg + dt) (pending pg))
            pg)).
Proof. unfold elapse. cbn zeta. rewrite run_callbacks. reflexivity. Qed.

Lemma elapse_frame (dt : nat) (pg : Page) :
  localStorage (elapse dt pg) = localStorage pg
  /\ keyCache (elapse dt pg) = keyCache pg
  /\ keyUpdateTimer (elapse dt pg) = keyUpdateTimer pg
  /\ nextTimerId (elapse dt pg) = nextTimerId pg
  /\ providerInput_value (elapse dt pg) = providerInput_value pg
  /\ clock (elapse dt pg) = clock pg + dt.
Proof. rewrite elapse_unfold. simpl. auto 10. Qed.

(** Nothing is pending: only the clock moves. *)
Lemma elapse_none (dt : nat) (pg : Page) :
  pending pg = [] ->
  pending (elapse dt pg) = [] /\ sent (elapse dt pg) = sent pg.
Proof.
  intros Hp. rewrite elapse_unfold. simpl. rewrite Hp. simpl.
  split; [reflexivity | apply app_nil_r].
Qed.

(** The pending timer is not due yet: it stays and nothing is sent. *)
Lemma elapse_early (dt : nat) (t : Timer) (pg : Page) :
  pending pg = [t] -> clock pg + dt < timer_due t ->
  pending (elapse dt pg) = [t] /\ sent (elapse dt pg) = sent pg.
Proof.
  intros Hp Hlt. rewrite elapse_unfold. simpl. rewrite Hp.
  rewrite !filter_cons, !filter_nil.
  destruct (decide (timer_due t <= clock pg + dt)) as [Hle|Hgt]; [lia |].
  destruct (decide (~ timer_due t <= clock pg + dt)) as [_|Hn]; [| contradiction].
  simpl. split; [reflexivity | apply app_nil_r].
Qed.

(** The pending timer is due: its write is sent and the table is empty. *)
Lemma elapse_fires (dt : nat) (t : Timer) (pg : Page) :
  pending pg = [t] -> timer_due t <= clock pg + dt ->
  pending (elapse dt pg) = []
  /\ sent (elapse dt pg) = sent pg ++ [write_of t].
Proof.
  intros Hp Hle. rewrite elapse_unfold. simpl. rewrite Hp.
  rewrite !filter_cons, !filter_nil.
  destruct (decide (timer_due t <= clock pg + dt)) as [_|Hgt]; [| lia].
  destruct (decide (~ timer_due t <= clock pg + dt)) as [Hn|_]; [contradiction |].
  simpl. auto.
Qed.

Lemma elapse_wf (dt : nat) (pg : Page) :
  timers_wf pg -> timers_wf (elapse dt pg).
Proof.
  intros [Hn Hp].
  destruct (elapse_frame dt pg) as (_ & _ & Ek & En & _ & Ec).
  split; [rewrite En; exact Hn |].
  destruct Hp as [Hp | (t & Hp & Hk & Hid & Hdue)].
  - left. apply (elapse_none dt pg Hp).
  - destruct (le_lt_dec (timer_due t) (clock pg + dt)) as [Hle|Hlt].
    + left. apply (elapse_fires dt t pg Hp Hle).
    + right. exists t. rewrite Ek, Ec.
      split; [apply (elapse_early dt t pg Hp Hlt) | auto].
Qed.

(** *** Answers to a credential read *)

Lemma hydrateFromEnv_then_none (provider : string) (resp : Response)
    (pg : Page) :
  no_credential resp -> hydrateFromEnv_then provider resp pg = pg.
Proof. intros []; reflexivity. Qed.

Lemma hydrateFromEnv_then_some (provider key : string) (status : nat)
    (pg : Page) :
  key <> "" ->
  hydrateFromEnv_then provider (Reply status (Some (DataObject (Some key)))) pg
  = setItem (getStorageKey provider) key (applyMaskedKey provider key pg).
Proof.
  intros Hk. apply truthy_nonempty in Hk. simpl. rewrite Hk. reflexivity.
Qed.

Lemma response_cases (resp : Response) :
  no_credential resp
  \/ exists status key,
       key <> "" /\ resp = Reply status (Some (DataObject (Some key))).
Proof.
  destruct resp as [|status [[|[key|]]|]]; try (left; constructor).
  destruct key as [|a key]; [left; constructor |].
  right. exists status, (String a key). split; [discriminate | reflexivity].
Qed.

Lemma hydrateFromEnv_then_frame (provider : string) (resp : Response)
    (pg : Page) :
  timer_state (hydrateFromEnv_then provider resp pg) = timer_state pg
  /\ sent (hydrateFromEnv_then provider resp pg) = sent pg
  /\ providerInput_value (hydrateFromEnv_then provider resp pg)
     = providerInput_value pg.
Proof.
  destruct (response_cases resp) as [Hnc | (status & key & Hk & ->)].
  - rewrite hydrateFromEnv_then_none by exact Hnc. auto.
  - rewrite hydrateFromEnv_then_some by exact Hk.
    destruct (applyMaskedKey_frame provider key pg) as (_ & Et & Es & _ & Ep).
    cbn. auto.
Qed.

(** *** The invariants hold in every reachable state *)

Lemma load_invariant (inst : option string) (ls : Storage) (now : nat)
    (log : list Request) :
  creds_nonempty ls -> invariant (load inst ls now log).
Proof.
  intros Hls. unfold load. cbn zeta.
  match goal with |- invariant (syncProvider ?p ?g) =>
    destruct (syncProvider_frame p g) as (Es & Et & _ & _) end.
  split.
  - rewrite Es. apply creds_nonempty_insert.
    + right. apply getStorageKey_not_provider.
    + simpl. apply creds_nonempty_ensureFresh, Hls.
  - eapply timers_wf_ext; [exact Et |].
    split; simpl; [lia | left; reflexivity].
Qed.

Lemma step_invariant (pg : Page) (e : Event) :
  invariant pg -> invariant (step pg e).
Proof.
  intros [Hls Hwf]. destruct e as [inst|p| | |typed|dt|i resp]; simpl.
  - apply load_invariant, Hls.
  - unfold onProviderChange.
    destruct (syncProvider_frame (providerName p) pg) as (Es & Et & _ & _).
    split.
    + rewrite Es. apply creds_nonempty_insert; [| exact Hls].
      right. apply getStorageKey_not_provider.
    + eapply timers_wf_ext; [exact Et | exact Hwf].
  - unfold onFocus. destruct (String.eqb _ _); split; assumption.
  - unfold onBlur. destruct (keyCache pg !! _) as [key|]; [| split; assumption].
    destruct (_ && _); [| split; assumption].
    destruct (applyMaskedKey_frame (providerInput_value pg) key pg)
      as (Es & Et & _).
    split; [rewrite Es; exact Hls | eapply timers_wf_ext; eassumption].
  - destruct typed as [|a typed].
    + destruct (onInput_empty pg) as (Et & _ & _ & _ & Es).
      split; [rewrite Es; apply creds_nonempty_delete, Hls |].
      eapply timers_wf_ext; eassumption.
    + assert (Hne : String a typed <> "") by discriminate.
      destruct (onInput_nonempty (String a typed) pg Hne Hwf)
        as (Et & _ & _ & _ & Es).
      split.
      * rewrite Es. apply creds_nonempty_insert; [left |]; assumption.
      * apply timer_state_inv in Et. destruct Et as (E1 & E2 & E3 & E4).
        destruct Hwf as [Hn _]. split; [rewrite E3; lia |].
        right. eexists. split; [exact E4 |]. rewrite E1, E2. simpl.
        split; [reflexivity |]. split; [exact Hn | lia].
  - destruct (elapse_frame dt pg) as (Es & _).
    split; [rewrite Es; exact Hls | apply elapse_wf, Hwf].
  - destruct (awaiting pg !! i) as [provider|]; [| split; assumption].
    set (pg1 := set_awaiting _ pg).
    assert (H1 : invariant pg1) by (split; assumption).
    destruct (response_cases resp) as [Hnc | (status & key & Hk & ->)].
    + rewrite hydrateFromEnv_then_none by exact Hnc. exact H1.
    + rewrite hydrateFromEnv_then_some by exact Hk.
      destruct (applyMaskedKey_frame provider key pg1) as (Es & Et & _).
      split.
      * simpl. rewrite Es. apply creds_nonempty_insert; [left |]; assumption.
      * eapply timers_wf_ext; [| exact Hwf]. exact Et.
Qed.

Lemma run_invariant (evs : list Event) (pg : Page) :
  invariant pg -> invariant (run evs pg).
Proof.
  revert pg. induction evs as [|e evs IH]; intros pg H; simpl; [exact H |].
  apply IH, step_invariant, H.
Qed.

Lemma reachable_invariant (pg : Page) : reachable pg -> invariant pg.
Proof.
  intros (inst & evs & ->). apply run_invariant, load_invariant.
  intros q. rewrite lookup_empty. discriminate.
Qed.

Lemma reachable_step (pg : Page) (e : Event) :
  reachable pg -> reachable (step pg e).
Proof.
  intros (inst & evs & ->). exists inst, (evs ++ [e]).
  unfold run. rewrite foldl_app. reflexivity.
Qed.

Lemma syncProvider_known (p : Provider) (pg : Page) :
  provider_known (syncProvider (providerName p) pg).
Proof.
  destruct (syncProvider_frame (providerName p) pg) as (Es & _ & _ & Ep).
  split; [exists p; exact Ep |].
  intros s. rewrite Es, lookup_insert_eq. intros [= <-]. exists p. reflexivity.
Qed.

Lemma load_known (inst : option string) (ls : Storage) (now : nat)
    (log : list Request) :
  (forall s, ls !! STORAGE_PROVIDER = Some s -> exists p, s = providerName p) ->
  provider_known (load inst ls now log).
Proof.
  intros Hls. unfold load, getItem. cbn.
  assert (H : forall s,
             ensureFreshLocalStorage inst ls !! STORAGE_PROVIDER = Some s ->
             exists p, s = providerName p).
  { intros s. unfold ensureFreshLocalStorage.
    destruct (strict_neq _ _); [| apply Hls].
    rewrite lookup_insert_ne by discriminate.
    unfold clearLocalState. rewrite lookup_delete_eq. discriminate. }
  destruct (ensureFreshLocalStorage inst ls !! STORAGE_PROVIDER) as [s|] eqn:E.
  - destruct (H s eq_refl) as [p ->].
    replace (JS.truthy (providerName p)) with true by (destruct p; reflexivity).
    apply syncProvider_known.
  - apply (syncProvider_known gemini).
Qed.

Lemma known_ext (pg pg' : Page) :
  providerInput_value pg' = providerInput_value pg ->
  localStorage pg' !! STORAGE_PROVIDER = localStorage pg !! STORAGE_PROVIDER ->
  provider_known pg -> provider_known pg'.
Proof. unfold provider_known. intros -> ->. auto. Qed.

Lemma step_known (pg : Page) (e : Event) :
  provider_known pg -> provider_known (step pg e).
Proof.
  intros Hk. pose proof (known_ext pg) as Hext.
  destruct e as [inst|p| | |typed|dt|i resp]; cbn [step].
  - apply load_known, Hk.
  - apply syncProvider_known.
  - unfold onFocus. destruct (String.eqb _ _); exact Hk.
  - unfold onBlur. destruct (keyCache pg !! _) as [key|]; [| exact Hk].
    destruct (_ && _); [| exact Hk].
    destruct (applyMaskedKey_frame (providerInput_value pg) key pg)
      as (Es & _ & _ & _ & Ep).
    apply Hext; [exact Ep | rewrite Es; reflexivity | exact Hk].
  - destruct typed as [|a typed].
    + destruct (onInput_empty pg) as (_ & _ & Ep & _ & Es).
      apply Hext; [exact Ep | | exact Hk].
      rewrite Es. apply lookup_delete_ne, getStorageKey_not_provider.
    + unfold onInput. cbn.
      match goal with |- context [scheduleKeySync ?q ?k ?g] =>
        destruct (scheduleKeySync_frame q k g) as (Es & _ & _ & Ep) end.
      apply Hext; [rewrite Ep; reflexivity | | exact Hk].
      rewrite Es. cbn. apply lookup_insert_ne, getStorageKey_not_provider.
  - destruct (elapse_frame dt pg) as (Es & _ & _ & _ & Ep & _).
    apply Hext; [exact Ep | rewrite Es; reflexivity | exact Hk].
  - destruct (awaiting pg !! i) as [provider|]; [| exact Hk].
    set (pg1 := set_awaiting _ pg).
    destruct (response_cases resp) as [Hnc | (status & key & Hne & ->)].
    + rewrite hydrateFromEnv_then_none by exact Hnc. exact Hk.
    + rewrite hydrateFromEnv_then_some by exact Hne.
      destruct (applyMaskedKey_frame provider key pg1) as (Es & _ & _ & _ & Ep).
      apply Hext; [exact Ep | | exact Hk].
      cbn. rewrite Es. apply lookup_insert_ne, getStorageKey_not_provider.
Qed.

(** In every reachable state the active provider is one of the three. *)
Lemma reachable_known (pg : Page) : reachable pg -> provider_known pg.
Proof.
  intros (inst & evs & ->). unfold run.
  assert (H : provider_known (load inst ∅ 0 [])).
  { apply load_known. intros s. rewrite lookup_empty. discriminate. }
  revert H. generalize (load inst ∅ 0 []).
  induction evs as [|e evs IH]; intros pg H; simpl; [exact H |].
  apply IH, step_known, H.
Qed.

(** *** One edit, followed over time *)

(** After a non-empty edit and a pause shorter than the delay, nothing
    has been sent and the edit's timer is the one pending. *)
Lemma edit_then_pause (typed : string) (d : nat) (pg : Page) :
  timers_wf pg -> typed <> "" -> d < 400 ->
  let pg' := elapse d (onInput typed pg) in
  sent pg' = sent pg
  /\ pending pg'
     = [sync_timer (nextTimerId pg) (clock pg + 400)
          (providerInput_value pg) typed]
  /\ clock pg' = clock pg + d
  /\ providerInput_value pg' = providerInput_value pg
  /\ keyCache pg' = <[providerInput_value pg := typed]> (keyCache pg)
  /\ localStorage pg'
     = <[getStorageKey (providerInput_value pg) := typed]> (localStorage pg).
Proof.
  intros Hwf Ht Hd pg'. subst pg'.
  destruct (onInput_nonempty typed pg Ht Hwf) as (Et & Es & Ep & Ek & El).
  apply timer_state_inv in Et. destruct Et as (_ & Ec & _ & Epend).
  destruct (elapse_frame d (onInput typed pg))
    as (Fl & Fk & _ & _ & Fp & Fc).
  destruct (elapse_early d _ (onInput typed pg) Epend) as [Gp Gs].
  { rewrite Ec. simpl. lia. }
  rewrite Gs, Gp, Fc, Fp, Fk, Fl, Es, Ec, Ep, Ek, El. auto 10.
Qed.

(** A single pending timer that comes due sends its captured pair. *)
Lemma pending_write_fires (t : Timer) (w : nat) (pg : Page) :
  pending pg = [t] -> timer_due t <= clock pg + w ->
  sent (elapse w pg) = (sent pg ++ [write_of t])%list
  /\ writes (sent (elapse w pg))
     = (writes (sent pg) ++ [(timer_provider t, timer_key t)])%list.
Proof.
  intros Hp Hdue. destruct (elapse_fires w t pg Hp Hdue) as [_ Es].
  split; [exact Es |]. rewrite Es. unfold writes. rewrite omap_app.
  reflexivity.
Qed.

(** *** What may happen between two edits *)

(** A quiet event that ends before the pending timer is due leaves the
    timer where it is and sends no write. *)
Lemma quiet_step (e : Event) (t : Timer) (pg : Page) :
  quiet e = true -> pending pg = [t] ->
  clock pg + elapsed [e] < timer_due t ->
  pending (step pg e) = [t]
  /\ writes (sent (step pg e)) = writes (sent pg)
  /\ clock (step pg e) = clock pg + elapsed [e].
Proof.
  intros Hq Hp Hdue.
  destruct e as [inst|p| | |typed|dt|i resp]; try discriminate Hq;
    cbn [step elapsed foldr] in *.
  - unfold onProviderChange.
    destruct (syncProvider_frame (providerName p) pg) as (_ & Et & Ew & _).
    destruct (timer_state_inv _ _ _ _ _ Et) as (_ & -> & _ & ->).
    rewrite Ew. auto with arith.
  - unfold onFocus. destruct (String.eqb _ _); simpl; auto with arith.
  - unfold onBlur. destruct (keyCache pg !! _) as [key|]; [| auto with arith].
    destruct (_ && _); [| auto with arith].
    destruct (applyMaskedKey_frame (providerInput_value pg) key pg)
      as (_ & Et & -> & _).
    destruct (timer_state_inv _ _ _ _ _ Et) as (_ & -> & _ & ->).
    auto with arith.
  - destruct (elapse_early dt t pg Hp) as [-> ->]; [lia |].
    destruct (elapse_frame dt pg) as (_ & _ & _ & _ & _ & ->).
    split; [reflexivity |]. split; [reflexivity | lia].
  - destruct (awaiting pg !! i) as [provider|]; [| auto with arith].
    match goal with |- context [hydrateFromEnv_then ?q ?r ?g] =>
      destruct (hydrateFromEnv_then_frame q r g) as (Et & -> & _) end.
    destruct (timer_state_inv _ _ _ _ _ Et) as (_ & -> & _ & ->).
    simpl. auto with arith.
Qed.

Lemma elapsed_cons (e : Event) (evs : list Event) :
  elapsed (e :: evs) = elapsed [e] + elapsed evs.
Proof. destruct e; simpl; lia. Qed.

Lemma quiet_run (evs : list Event) (t : Timer) (pg : Page) :
  forallb quiet evs = true -> pending pg = [t] ->
  clock pg + elapsed evs < timer_due t ->
  pending (run evs pg) = [t]
  /\ writes (sent (run evs pg)) = writes (sent pg)
  /\ clock (run evs pg) = clock pg + elapsed evs.
Proof.
  revert pg. induction evs as [|e evs IH]; intros pg Hq Hp Hdue.
  - simpl. auto with arith.
  - simpl in Hq. apply andb_prop in Hq. destruct Hq as [He Hq].
    rewrite elapsed_cons in *.
    destruct (quiet_step e t pg He Hp) as (Ep & Ew & Ec); [lia |].
    destruct (IH (step pg e) Hq Ep) as (Fp & Fw & Fc); [lia |].
    change (run (e :: evs) pg) with (run evs (step pg e)).
    rewrite Fp, Fw, Fc, Ew, Ec. split; [reflexivity |].
    split; [reflexivity | lia].
Qed.

Lemma run_nil (pg : Page) : run [] pg = pg.
Proof. reflexivity. Qed.

Lemma run_cons (e : Event) (evs : list Event) (pg : Page) :
  run (e :: evs) pg = run evs (step pg e).
Proof. reflexivity. Qed.

Lemma run_events_app (evs1 evs2 : list Event) (pg : Page) :
  run (evs1 ++ evs2) pg = run evs2 (run evs1 pg).
Proof. unfold run. apply foldl_app. Qed.

Lemma reachable_run (pg : Page) (evs : list Event) :
  reachable pg -> reachable (run evs pg).
Proof.
  intros (inst & evs0 & ->). exists inst, (evs0 ++ evs).
  symmetry. apply run_events_app.
Qed.

(** C4. Two non-empty edits of the credential of one provider, with
    less than 400 ms and no further edit or reload between them, then at
    least 400 ms of quiet: the second edit replaces the first one's timer
    by its own, and exactly one write is sent, with the second edit's
    value. *)
Theorem debounce_two_edits (pg : Page) (v1 v2 : string)
    (between : list Event) (w : nat) :
  reachable pg -> v1 <> "" -> v2 <> "" ->
  forallb quiet between = true -> elapsed between < 400 ->
  providerInput_value (run (Input v1 :: between) pg) = providerInput_value pg ->
  400 <= w ->
  (exists id due,
     pending (run (Input v1 :: between ++ [Input v2]) pg)
     = [sync_timer id due (providerInput_value pg) v2])
  /\ writes (sent (run (Input v1 :: between ++ [Input v2; Elapse w]) pg))
     = (writes (sent pg) ++ [(providerInput_value pg, v2)])%list.
Proof.
  intros Hr H1 H2 Hq Hd Hsame Hw.
  rewrite run_cons in Hsame. rewrite !run_cons, !run_events_app.
  rewrite !run_cons, !run_nil. cbn [step] in Hsame |- *.
  pose proof (reachable_invariant _ Hr) as [_ Hwf].
  destruct (onInput_nonempty v1 pg H1 Hwf) as (Et & Es & _).
  apply timer_state_inv in Et. destruct Et as (_ & Ec & _ & Epend).
  destruct (quiet_run between _ _ Hq Epend) as (_ & Ew & _).
  { rewrite Ec. simpl. lia. }
  set (pg2 := run between (onInput v1 pg)) in *.
  assert (Hwf2 : timers_wf pg2).
  { apply (reachable_invariant pg2).
    apply reachable_run, (reachable_step _ (Input v1)), Hr. }
  destruct (onInput_nonempty v2 pg2 H2 Hwf2) as (Et & Es3 & _).
  apply timer_state_inv in Et. destruct Et as (_ & Ec3 & _ & Epend3).
  split.
  - eexists _, _. rewrite Epend3, Hsame. reflexivity.
  - destruct (pending_write_fires _ w _ Epend3) as [_ E].
    { rewrite Ec3. simpl. lia. }
    rewrite E, Es3, Ew, Es, Hsame. reflexivity.
Qed.

(** C5. A write scheduled for provider [P] with value [V] is sent as
    [(P, V)] also when the active provider is switched before the timer
    fires. *)
Theorem scheduled_pair_survives_switch (pg : Page) (V : string)
    (Q : Provider) (d w : nat) :
  reachable pg -> V <> "" -> providerName Q <> providerInput_value pg ->
  d < 400 -> 400 <= d + w ->
  let pg' := run [Input V; Elapse d; ProviderChange Q; Elapse w] pg in
  providerInput_value (run [Input V; Elapse d; ProviderChange Q] pg)
  = providerName Q
  /\ writes (sent pg')
     = (writes (sent pg) ++ [(providerInput_value pg, V)])%list.
Proof.
  intros Hr HV _ Hd Hw. unfold run. cbn [foldl step]. unfold onProviderChange.
  pose proof (reachable_invariant _ Hr) as [_ Hwf].
  destruct (edit_then_pause V d pg Hwf HV Hd) as (Es & Ep & Ec & _).
  set (pg2 := elapse d (onInput V pg)) in *.
  destruct (syncProvider_frame (providerName Q) pg2) as (_ & Et & Ew & Eq).
  split; [exact Eq |].
  destruct (timer_state_inv _ _ _ _ _ Et) as (_ & Ec3 & _ & Ep3).
  rewrite Ep in Ep3.
  destruct (pending_write_fires _ w _ Ep3) as [_ E].
  { rewrite Ec3, Ec. simpl. lia. }
  rewrite E, Ew, Es. reflexivity.
Qed.

(** C10. Emptying the field clears the in-memory slot and removes the
    storage entry of the active provider, leaves the pending timer in
    place, and the write of the earlier edit is sent all the same. *)
Theorem clearing_keeps_pending_write (pg : Page) (V : string) (d w : nat) :
  reachable pg -> V <> "" -> d < 400 -> 400 <= d + w ->
  let P := providerInput_value pg in
  let cleared := run [Input V; Elapse d; Input ""] pg in
  keyCache cleared !! P = Some ""
  /\ localStorage cleared !! getStorageKey P = None
  /\ pending cleared = pending (run [Input V; Elapse d] pg)
  /\ (exists id due, pending cleared = [sync_timer id due P V])
  /\ sent (run [Input V; Elapse d; Input ""; Elapse w] pg)
     = (sent pg ++ [PostKey P V])%list.
Proof.
  intros Hr HV Hd Hw. unfold run. cbn [foldl step].
  pose proof (reachable_invariant _ Hr) as [_ Hwf].
  destruct (edit_then_pause V d pg Hwf HV Hd) as (Es & Ep & Ec & Epr & _).
  set (pg2 := elapse d (onInput V pg)) in *.
  destruct (onInput_empty pg2) as (Et & Es3 & _ & Ek & El).
  cbn zeta in *.
  destruct (timer_state_inv _ _ _ _ _ Et) as (_ & Ec3 & _ & Ep3).
  split; [rewrite Ek, Epr; apply lookup_insert_eq |].
  split; [rewrite El, Epr; apply lookup_delete_eq |].
  split; [exact Ep3 |].
  split; [eexists _, _; rewrite Ep3, Ep; reflexivity |].
  rewrite Ep in Ep3.
  destruct (pending_write_fires _ w _ Ep3) as [E _].
  { rewrite Ec3, Ec. simpl. lia. }
  rewrite E, Es3, Es. reflexivity.
Qed.

Lemma openai_page_reachable : reachable openai_page.
Proof. exists (Some "A"), [ProviderChange openai]. reflexivity. Defined.

Lemma debounce_two_edits_witness :
  let between := [Elapse 100; Blur; Elapse 200; Focus] in
  (exists id due,
     pending (run (Input "sk-1" :: between ++ [Input "sk-12345"]) openai_page)
     = [sync_timer id due (providerInput_value openai_page) "sk-12345"])
  /\ writes (sent (run (Input "sk-1" :: between
                                    ++ [Input "sk-12345"; Elapse 400])
                     openai_page))
     = (writes (sent openai_page)
        ++ [(providerInput_value openai_page, "sk-12345")])%list.
Proof.
  apply (debounce_two_edits openai_page "sk-1" "sk-12345"
           [Elapse 100; Blur; Elapse 200; Focus] 400);
    [exact openai_page_reachable | discriminate | discriminate
    | reflexivity | simpl; lia | vm_compute; reflexivity | lia].
Defined.

(** Two edits with nothing but time between them: one request. *)
Example two_edits_scenario :
  sent (run [Input "sk-1"; Elapse 399; Input "sk-12345"; Elapse 400]
          openai_page)
  = (sent openai_page ++ [PostKey "openai" "sk-12345"])%list.
Proof. vm_compute. reflexivity. Qed.

(** At 400 ms the first timer has fired: two requests. *)
Example two_edits_too_late :
  sent (run [Input "sk-1"; Elapse 400; Input "sk-12345"; Elapse 400]
          openai_page)
  = (sent openai_page
     ++ [PostKey "openai" "sk-1"; PostKey "openai" "sk-12345"])%list.
Proof. vm_compute. reflexivity. Qed.

Lemma scheduled_pair_survives_switch_witness :
  providerInput_value
    (run [Input "sk-12345"; Elapse 100; ProviderChange grok] openai_page)
  = providerName grok
  /\ writes (sent (run [Input "sk-12345"; Elapse 100; ProviderChange grok;
                        Elapse 300] openai_page))
     = (writes (sent openai_page)
        ++ [(providerInput_value openai_page, "sk-12345")])%list.
Proof.
  apply (scheduled_pair_survives_switch openai_page "sk-12345" grok 100 300);
    [exact openai_page_reachable | discriminate | vm_compute; discriminate
    | lia | lia].
Defined.

Lemma clearing_keeps_pending_write_witness :
  keyCache (run [Input "sk-12345"; Elapse 100; Input ""] openai_page)
    !! providerInput_value openai_page = Some ""
  /\ localStorage (run [Input "sk-12345"; Elapse 100; Input ""] openai_page)
       !! getStorageKey (providerInput_value openai_page) = None
  /\ pending (run [Input "sk-12345"; Elapse 100; Input ""] openai_page)
     = pending (run [Input "sk-12345"; Elapse 100] openai_page)
  /\ (exists id due,
        pending (run [Input "sk-12345"; Elapse 100; Input ""] openai_page)
        = [sync_timer id due (providerInput_value openai_page) "sk-12345"])
  /\ sent (run [Input "sk-12345"; Elapse 100; Input ""; Elapse 300]
             openai_page)
     = (sent openai_page
        ++ [PostKey (providerInput_value openai_page) "sk-12345"])%list.
Proof.
  apply (clearing_keeps_pending_write openai_page "sk-12345" 100 300);
    [exact openai_page_reachable | discriminate | lia | lia].
Defined.

(** The scenario of the specification: one edit for OpenAI and a wait
    past the delay give one write request with that pair. *)
Example single_edit_scenario :
  sent (run [Input "sk-12345"; Elapse 401] openai_page)
  = (sent openai_page ++ [PostKey "openai" "sk-12345"])%list.
Proof. vm_compute. reflexivity. Qed.

(** ** Switching the provider and hydrating from the environment *)

Lemma syncProvider_stored (provider key : string) (pg : Page) :
  localStorage pg !! getStorageKey provider = Some key -> key <> "" ->
  syncProvider provider pg
  = applyMaskedKey provider key
      (set_apiKeyVisible_placeholder (placeholderFor provider)
         (setItem STORAGE_PROVIDER provider
            (set_providerInput_value provider pg))).
Proof.
  intros Hs Hk. unfold syncProvider, getItem. cbn.
  rewrite lookup_insert_ne by (apply not_eq_sym, getStorageKey_not_provider).
  rewrite Hs. cbn. apply truthy_nonempty in Hk. rewrite Hk. reflexivity.
Qed.

Lemma syncProvider_not_stored (provider : string) (pg : Page) :
  localStorage pg !! getStorageKey provider = None
  \/ localStorage pg !! getStorageKey provider = Some "" ->
  let pg' := syncProvider provider pg in
  apiKeyVisible_value pg' = ""
  /\ apiKeyInput_value pg' = ""
  /\ apiKeyVisible_masked pg' = "false"
  /\ keyCache pg' = keyCache pg
  /\ sent pg' = (sent pg ++ [GetKey provider])%list.
Proof.
  intros Hs. unfold syncProvider, getItem. cbn.
  rewrite lookup_insert_ne by (apply not_eq_sym, getStorageKey_not_provider).
  destruct Hs as [-> | ->]; cbn; auto.
Qed.

(** C7. In a reachable state, switching to a provider with an entry in
    storage populates the in-memory cache with it and shows its masked
    projection with the flag ["true"]; switching to one without an entry
    shows the empty field with the flag ["false"], and so it stays when
    the answer to the read of the environment carries no credential. *)
Theorem syncProvider_display (pg : Page) (p : Provider) :
  reachable pg ->
  (forall key,
     localStorage pg !! getStorageKey (providerName p) = Some key ->
     let pg' := syncProvider (providerName p) pg in
     apiKeyVisible_value pg' = maskKey key
     /\ apiKeyVisible_masked pg' = "true"
     /\ keyCache pg' !! providerName p = Some key)
  /\ (localStorage pg !! getStorageKey (providerName p) = None ->
      forall resp, no_credential resp ->
      let pg' := hydrateFromEnv_then (providerName p) resp
                   (syncProvider (providerName p) pg) in
      apiKeyVisible_value pg' = "" /\ apiKeyVisible_masked pg' = "false").
Proof.
  intros Hr. destruct (reachable_invariant _ Hr) as [Hls _]. split.
  - intros key Hs pg'. subst pg'.
    assert (Hk : key <> "").
    { intros ->. exact (Hls _ Hs). }
    rewrite (syncProvider_stored _ _ _ Hs Hk).
    match goal with |- context [applyMaskedKey ?q ?k ?g] =>
      destruct (applyMaskedKey_truthy q k g Hk) as (-> & _ & -> & ->) end.
    rewrite lookup_insert_eq. auto.
  - intros Hs resp Hnc pg'. subst pg'.
    rewrite hydrateFromEnv_then_none by exact Hnc.
    destruct (syncProvider_not_stored (providerName p) pg (or_introl Hs))
      as (-> & _ & -> & _). auto.
Qed.

Lemma openai_keyed_reachable : reachable openai_keyed.
Proof. apply (reachable_step _ (Input "sk-12345")), openai_page_reachable. Defined.

Lemma syncProvider_display_witness :
  (let pg' := syncProvider (providerName openai) openai_keyed in
   apiKeyVisible_value pg' = maskKey "sk-12345"
   /\ apiKeyVisible_masked pg' = "true"
   /\ keyCache pg' !! providerName openai = Some "sk-12345")
  /\ (let pg' := hydrateFromEnv_then (providerName grok) NetworkError
                   (syncProvider (providerName grok) openai_keyed) in
      apiKeyVisible_value pg' = "" /\ apiKeyVisible_masked pg' = "false").
Proof.
  split.
  - apply (proj1 (syncProvider_display openai_keyed openai
                    openai_keyed_reachable) "sk-12345").
    vm_compute. reflexivity.
  - apply (proj2 (syncProvider_display openai_keyed grok
                    openai_keyed_reachable)).
    + vm_compute. reflexivity.
    + constructor.
Defined.

(** The same switch on concrete storage. *)
Example syncProvider_cached_example :
  let pg' := run [ProviderChange grok; ProviderChange openai] openai_keyed in
  apiKeyVisible_value pg' = "********"
  /\ apiKeyVisible_masked pg' = "true"
  /\ keyCache pg' !! "openai" = Some "sk-12345".
Proof. vm_compute. auto. Qed.

(** An entry holding the empty string, which no operation of the page
    writes, is read as no entry. *)
Remark syncProvider_empty_entry (provider : string) (pg : Page) :
  localStorage pg !! getStorageKey provider = Some "" ->
  apiKeyVisible_value (syncProvider provider pg) = ""
  /\ apiKeyVisible_masked (syncProvider provider pg) = "false".
Proof.
  intros Hs.
  destruct (syncProvider_not_stored provider pg (or_intror Hs))
    as (-> & _ & -> & _). auto.
Qed.

(** The credential read itself: one request is logged and nothing else
    changes until its answer arrives. *)
Lemma hydrateFromEnv_call (provider : string) (pg : Page) :
  let pg' := hydrateFromEnv provider pg in
  sent pg' = (sent pg ++ [GetKey provider])%list
  /\ writes (sent pg') = writes (sent pg)
  /\ timer_state pg' = timer_state pg
  /\ localStorage pg' = localStorage pg
  /\ keyCache pg' = keyCache pg
  /\ apiKeyVisible_value pg' = apiKeyVisible_value pg
  /\ apiKeyVisible_masked pg' = apiKeyVisible_masked pg.
Proof.
  simpl. repeat split; try reflexivity.
  unfold writes. rewrite omap_app. simpl. apply app_nil_r.
Qed.

(** C8, as stated, fails: a reply with status 500 whose body carries a
    credential is a failed read, and the callback adopts the credential. *)
Lemma hydrate_failed_read_counterexample :
  let resp := Reply 500 (Some (DataObject (Some "sk-env"))) in
  let pg := load (Some "A") ∅ 0 [] in
  failed_read resp
  /\ localStorage pg !! "gemini_api_key" = None
  /\ localStorage (hydrateFromEnv_then "gemini" resp pg) !! "gemini_api_key"
     = Some "sk-env"
  /\ hydrateFromEnv_then "gemini" resp pg <> pg.
Proof.
  cbn zeta. split; [left; lia |].
  split; [vm_compute; reflexivity |].
  split; [vm_compute; reflexivity |].
  intros H. apply (f_equal (fun g => localStorage g !! "gemini_api_key")) in H.
  vm_compute in H. discriminate H.
Qed.

(** C8, amended.  A reply of any status whose body is an object with a
    non-empty string as [api_key] populates the in-memory cache, the
    storage entry, the hidden field and the masked display of the
    provider, and neither touches the timer table nor sends a request; a
    network error, a body that is not JSON, a falsy body and an absent or
    empty [api_key] leave the whole state as it is; the read itself sets
    no timer and sends no write. *)
Theorem hydrate_outcomes (provider : string) (pg : Page) :
  (forall status key, key <> "" ->
     let pg' := hydrateFromEnv_then provider
                  (Reply status (Some (DataObject (Some key)))) pg in
     keyCache pg' !! provider = Some key
     /\ localStorage pg' !! getStorageKey provider = Some key
     /\ apiKeyInput_value pg' = key
     /\ apiKeyVisible_value pg' = maskKey key
     /\ apiKeyVisible_masked pg' = "true"
     /\ timer_state pg' = timer_state pg
     /\ sent pg' = sent pg)
  /\ (forall resp, no_credential resp ->
        hydrateFromEnv_then provider resp pg = pg)
  /\ (timer_state (hydrateFromEnv provider pg) = timer_state pg
      /\ writes (sent (hydrateFromEnv provider pg)) = writes (sent pg)).
Proof.
  split; [| split].
  - intros status key Hk pg'. subst pg'.
    rewrite hydrateFromEnv_then_some by exact Hk.
    destruct (applyMaskedKey_truthy provider key pg Hk) as (Ek & Ei & Ev & Em).
    destruct (applyMaskedKey_frame provider key pg) as (_ & Et & Es & _).
    cbn. rewrite Ek, Ei, Ev, Em, Es, !lookup_insert_eq.
    repeat split; try reflexivity. exact Et.
  - intros resp Hnc. apply hydrateFromEnv_then_none, Hnc.
  - destruct (hydrateFromEnv_call provider pg) as (_ & Ew & Et & _). auto.
Qed.

Lemma hydrate_outcomes_witness :
  (let pg' := hydrateFromEnv_then "gemini"
                (Reply 200 (Some (DataObject (Some "sk-env"))))
                (load (Some "A") ∅ 0 []) in
   keyCache pg' !! "gemini" = Some "sk-env"
   /\ localStorage pg' !! getStorageKey "gemini" = Some "sk-env"
   /\ apiKeyInput_value pg' = "sk-env"
   /\ apiKeyVisible_value pg' = maskKey "sk-env"
   /\ apiKeyVisible_masked pg' = "true"
   /\ timer_state pg' = timer_state (load (Some "A") ∅ 0 [])
   /\ sent pg' = sent (load (Some "A") ∅ 0 []))
  /\ hydrateFromEnv_then "gemini" (Reply 404 None) (load (Some "A") ∅ 0 [])
     = load (Some "A") ∅ 0 [].
Proof.
  split.
  - apply (proj1 (hydrate_outcomes "gemini" (load (Some "A") ∅ 0 [])) 200
             "sk-env").
    discriminate.
  - apply (proj1 (proj2 (hydrate_outcomes "gemini" (load (Some "A") ∅ 0 [])))).
    constructor.
Defined.

(** ** The credential store: further properties *)

(** *** Storage keys *)

Lemma append_suffix_length (s t : string) :
  String.length (s +:+ t) = String.length s + String.length t.
Proof.
  induction s as [|a s IH]; [reflexivity |].
  rewrite append_String. simpl. rewrite IH. reflexivity.
Qed.

Lemma append_suffix_inj (t p q : string) : p +:+ t = q +:+ t -> p = q.
Proof.
  revert q. induction p as [|a p IH]; intros [|b q] E.
  - reflexivity.
  - apply (f_equal String.length) in E. change ("" +:+ t) with t in E.
    rewrite append_String in E. simpl in E.
    rewrite append_suffix_length in E. lia.
  - apply (f_equal String.length) in E. change ("" +:+ t) with t in E.
    rewrite append_String in E. simpl in E.
    rewrite append_suffix_length in E. lia.
  - rewrite !append_String in E. injection E as -> E.
    f_equal. apply IH, E.
Qed.

(** Two providers never share a credential entry, and no credential
    entry is the entry of the selection or of the session token. *)
Theorem getStorageKey_separates (p q : string) :
  (getStorageKey p = getStorageKey q -> p = q)
  /\ getStorageKey p <> STORAGE_PROVIDER
  /\ getStorageKey p <> STORAGE_SESSION.
Proof.
  split; [apply append_suffix_inj |].
  split; [apply getStorageKey_not_provider | apply getStorageKey_not_session].
Qed.

Lemma getStorageKey_separates_witness :
  (getStorageKey "grok" = getStorageKey "grok" -> "grok" = "grok")
  /\ getStorageKey "grok" <> STORAGE_PROVIDER
  /\ getStorageKey "grok" <> STORAGE_SESSION.
Proof. apply (getStorageKey_separates "grok" "grok"). Defined.

Lemma getStorageKey_ne (p q : string) :
  p <> q -> getStorageKey p <> getStorageKey q.
Proof. intros Hne E. apply Hne, (append_suffix_inj _ _ _ E). Qed.

(** *** Edits *)

Lemma onInput_fields (typed : string) (pg : Page) :
  apiKeyVisible_value (onInput typed pg) = typed
  /\ apiKeyInput_value (onInput typed pg) = typed
  /\ providerInput_value (onInput typed pg) = providerInput_value pg
  /\ keyCache (onInput typed pg)
     = <[providerInput_value pg := typed]> (keyCache pg)
  /\ localStorage (onInput typed pg)
     = (if JS.truthy typed
        then <[getStorageKey (providerInput_value pg) := typed]>
               (localStorage pg)
        else delete (getStorageKey (providerInput_value pg))
               (localStorage pg))
  /\ apiKeyVisible_masked (onInput typed pg) = apiKeyVisible_masked pg
  /\ awaiting (onInput typed pg) = awaiting pg.
Proof.
  unfold onInput, scheduleKeySync. cbn.
  destruct typed as [|a typed]; cbn; [repeat split; reflexivity |].
  destruct (keyUpdateTimer pg) as [[|n]|]; cbn; repeat split; reflexivity.
Qed.

(** An edit, empty or not, changes the storage entry and the in-memory
    slot of the active provider only: the entries and slots of the other
    providers, the remembered selection and the recorded token stay. *)
Theorem onInput_other_providers (typed q : string) (pg : Page) :
  q <> providerInput_value pg ->
  let pg' := onInput typed pg in
  localStorage pg' !! getStorageKey q = localStorage pg !! getStorageKey q
  /\ keyCache pg' !! q = keyCache pg !! q
  /\ localStorage pg' !! STORAGE_PROVIDER = localStorage pg !! STORAGE_PROVIDER
  /\ localStorage pg' !! STORAGE_SESSION = localStorage pg !! STORAGE_SESSION.
Proof.
  intros Hq pg'. subst pg'.
  destruct (onInput_fields typed pg) as (_ & _ & _ & -> & -> & _).
  assert (Hk : getStorageKey (providerInput_value pg) <> getStorageKey q)
    by (apply getStorageKey_ne; congruence).
  rewrite lookup_insert_ne by congruence.
  destruct (JS.truthy typed).
  - rewrite !lookup_insert_ne;
      auto using getStorageKey_not_provider, getStorageKey_not_session.
  - rewrite !lookup_delete_ne;
      auto using getStorageKey_not_provider, getStorageKey_not_session.
Qed.

Lemma onInput_other_providers_witness :
  let pg := run [Input "sk-12345"; ProviderChange grok] openai_page in
  let pg' := onInput "xai-1" pg in
  localStorage pg' !! getStorageKey "openai"
  = localStorage pg !! getStorageKey "openai"
  /\ keyCache pg' !! "openai" = keyCache pg !! "openai"
  /\ localStorage pg' !! STORAGE_PROVIDER = localStorage pg !! STORAGE_PROVIDER
  /\ localStorage pg' !! STORAGE_SESSION = localStorage pg !! STORAGE_SESSION.
Proof.
  apply (onInput_other_providers "xai-1" "openai"
           (run [Input "sk-12345"; ProviderChange grok] openai_page)).
  vm_compute. discriminate.
Defined.

(** *** Focus and blur *)

(** Leaving the field right after an edit changes nothing: typed text
    stays as typed, in the clear, and a cleared field stays empty. *)
Theorem onBlur_after_onInput (typed : string) (pg : Page) :
  onBlur (onInput typed pg) = onInput typed pg.
Proof.
  unfold onBlur.
  destruct (onInput_fields typed pg) as (-> & _ & -> & -> & _).
  rewrite lookup_insert_eq.
  destruct typed; reflexivity.
Qed.

(** Entering and leaving a masked field without typing: the field is
    emptied on focus and gets the mask of the cached credential back on
    blur; storage, timers and the request log are not touched. *)
Theorem focus_blur_restores_mask (key : string) (pg : Page) :
  apiKeyVisible_masked pg = "true" ->
  keyCache pg !! providerInput_value pg = Some key -> key <> "" ->
  (apiKeyVisible_value (onFocus pg) = ""
   /\ apiKeyVisible_masked (onFocus pg) = "false")
  /\ (let pg' := onBlur (onFocus pg) in
      apiKeyVisible_value pg' = maskKey key
      /\ apiKeyVisible_masked pg' = "true"
      /\ apiKeyInput_value pg' = key
      /\ keyCache pg' = keyCache pg
      /\ localStorage pg' = localStorage pg
      /\ timer_state pg' = timer_state pg
      /\ sent pg' = sent pg).
Proof.
  intros Hm Hc Hk. unfold onFocus. rewrite Hm. cbn [String.eqb].
  replace ("true" =? "true")%string with true by reflexivity.
  split; [split; reflexivity |].
  unfold onBlur. cbn. rewrite Hc. cbn.
  apply truthy_nonempty in Hk as Ht. rewrite Ht. cbn.
  match goal with |- context [applyMaskedKey ?q ?k ?g] =>
    destruct (applyMaskedKey_truthy q k g Hk) as (Ek & Ei & Ev & Em);
    destruct (applyMaskedKey_frame q k g) as (Es & Et & En & _) end.
  rewrite Ek, Ei, Ev, Em, Es, Et, En. cbn.
  repeat split; try reflexivity.
  apply insert_id, Hc.
Qed.

Lemma focus_blur_restores_mask_witness :
  let pg := run [Input "sk-12345"; ProviderChange grok; ProviderChange openai]
              openai_page in
  (apiKeyVisible_value (onFocus pg) = ""
   /\ apiKeyVisible_masked (onFocus pg) = "false")
  /\ (let pg' := onBlur (onFocus pg) in
      apiKeyVisible_value pg' = maskKey "sk-12345"
      /\ apiKeyVisible_masked pg' = "true"
      /\ apiKeyInput_value pg' = "sk-12345"
      /\ keyCache pg' = keyCache pg
      /\ localStorage pg' = localStorage pg
      /\ timer_state pg' = timer_state pg
      /\ sent pg' = sent pg).
Proof.
  apply (focus_blur_restores_mask "sk-12345"
           (run [Input "sk-12345"; ProviderChange grok; ProviderChange openai]
              openai_page));
    [vm_compute; reflexivity | vm_compute; reflexivity | discriminate].
Defined.

(** *** Induction over the reachable states *)

Lemma reachable_load (appInstance : option string) :
  reachable (load appInstance ∅ 0 []).
Proof. exists appInstance, []. reflexivity. Qed.

Lemma reachable_induction (P : Page -> Prop) :
  (forall appInstance, P (load appInstance ∅ 0 [])) ->
  (forall pg e, reachable pg -> P pg -> P (step pg e)) ->
  forall pg, reachable pg -> P pg.
Proof.
  intros Hload Hstep pg (inst & evs & ->).
  induction evs as [|e evs IH] using rev_ind; [apply Hload |].
  rewrite run_events_app, run_cons, run_nil.
  apply Hstep; [| exact IH].
  apply reachable_run, reachable_load.
Qed.

(** *** The remembered selection *)

Lemma load_frame (appInstance : option string) (ls : Storage) (now : nat)
    (log : list Request) :
  let pg := load appInstance ls now log in
  timer_state pg = (None, now, 1, [])
  /\ writes (sent pg) = writes log
  /\ localStorage pg
     = <[STORAGE_PROVIDER := providerInput_value pg]>
         (ensureFreshLocalStorage appInstance ls).
Proof.
  unfold load. cbn zeta.
  match goal with |- context [syncProvider ?q ?g] =>
    destruct (syncProvider_frame q g) as (Es & Et & Ew & Ep) end.
  rewrite Es, Et, Ew, Ep. auto.
Qed.

Lemma hydrateFromEnv_then_storage (provider : string) (resp : Response)
    (pg : Page) :
  hydrateFromEnv_then provider resp pg = pg
  \/ exists key,
       key <> ""
       /\ localStorage (hydrateFromEnv_then provider resp pg)
          = <[getStorageKey provider := key]> (localStorage pg)
       /\ keyCache (hydrateFromEnv_then provider resp pg)
          = <[provider := key]> (keyCache pg).
Proof.
  destruct (response_cases resp) as [Hnc | (status & key & Hk & ->)].
  - left. apply hydrateFromEnv_then_none, Hnc.
  - right. exists key. rewrite hydrateFromEnv_then_some by exact Hk.
    destruct (applyMaskedKey_truthy provider key pg Hk) as (Ek & _).
    destruct (applyMaskedKey_frame provider key pg) as (Es & _).
    cbn. rewrite Es, Ek. auto.
Qed.

Lemma reachable_selection (pg : Page) :
  reachable pg ->
  localStorage pg !! STORAGE_PROVIDER = Some (providerInput_value pg).
Proof.
  revert pg. apply reachable_induction.
  - intros inst. destruct (load_frame inst ∅ 0 []) as (_ & _ & ->).
    apply lookup_insert_eq.
  - intros pg e _ IH.
    destruct e as [inst|p| | |typed|dt|i resp]; cbn [step].
    + destruct (load_frame inst (localStorage pg) (clock pg) (sent pg))
        as (_ & _ & ->).
      apply lookup_insert_eq.
    + unfold onProviderChange.
      destruct (syncProvider_frame (providerName p) pg) as (-> & _ & _ & ->).
      apply lookup_insert_eq.
    + unfold onFocus. destruct (String.eqb _ _); exact IH.
    + unfold onBlur. destruct (keyCache pg !! _) as [key|]; [| exact IH].
      destruct (_ && _); [| exact IH].
      destruct (applyMaskedKey_frame (providerInput_value pg) key pg)
        as (-> & _ & _ & _ & ->).
      exact IH.
    + destruct (onInput_fields typed pg) as (_ & _ & -> & _ & -> & _).
      destruct (JS.truthy typed).
      * rewrite lookup_insert_ne by apply getStorageKey_not_provider. exact IH.
      * rewrite lookup_delete_ne by apply getStorageKey_not_provider. exact IH.
    + destruct (elapse_frame dt pg) as (-> & _ & _ & _ & -> & _). exact IH.
    + destruct (awaiting pg !! i) as [provider|]; [| exact IH].
      set (pg1 := set_awaiting _ pg).
      destruct (hydrateFromEnv_then_frame provider resp pg1) as (_ & _ & ->).
      destruct (hydrateFromEnv_then_storage provider resp pg1)
        as [-> | (key & _ & -> & _)]; [exact IH |].
      rewrite lookup_insert_ne by apply getStorageKey_not_provider. exact IH.
Qed.

(** In every reachable state the selection that storage remembers is the
    active provider, which is one of the three providers. *)
Theorem stored_selection_is_active (pg : Page) :
  reachable pg ->
  localStorage pg !! STORAGE_PROVIDER = Some (providerInput_value pg)
  /\ exists p, providerInput_value pg = providerName p.
Proof.
  intros Hr. split; [apply reachable_selection, Hr |].
  exact (proj1 (reachable_known pg Hr)).
Qed.

Lemma stored_selection_is_active_witness :
  localStorage openai_keyed !! STORAGE_PROVIDER
  = Some (providerInput_value openai_keyed)
  /\ exists p, providerInput_value openai_keyed = providerName p.
Proof. apply (stored_selection_is_active openai_keyed openai_keyed_reachable). Defined.

(** *** The in-memory cache and storage *)

(** A credential held in memory is the one storage holds for that
    provider. *)
Definition cache_in_storage (pg : Page) : Prop :=
  forall q key,
    keyCache pg !! q = Some key -> key <> "" ->
    localStorage pg !! getStorageKey q = Some key.

Lemma cache_in_storage_set (q0 key0 : string) (pg pg' : Page) :
  keyCache pg' = <[q0 := key0]> (keyCache pg) ->
  (key0 <> "" -> localStorage pg' !! getStorageKey q0 = Some key0) ->
  (forall q, q <> q0 ->
     localStorage pg' !! getStorageKey q = localStorage pg !! getStorageKey q) ->
  cache_in_storage pg -> cache_in_storage pg'.
Proof.
  intros Ek Hq0 Hother IH q key. rewrite Ek, lookup_insert.
  destruct (decide (q0 = q)) as [<-|Hne].
  - intros [= <-]. exact Hq0.
  - intros Hc Hk. rewrite Hother by congruence. apply IH; assumption.
Qed.

Lemma cache_in_storage_same (pg pg' : Page) :
  keyCache pg' = keyCache pg ->
  (forall q,
     localStorage pg' !! getStorageKey q = localStorage pg !! getStorageKey q) ->
  cache_in_storage pg -> cache_in_storage pg'.
Proof. intros Ek Es IH q key. rewrite Ek, Es. apply IH. Qed.

Lemma syncProvider_cache_in_storage (provider : string) (pg : Page) :
  cache_in_storage pg -> cache_in_storage (syncProvider provider pg).
Proof.
  intros IH.
  destruct (syncProvider_frame provider pg) as (Es & _).
  assert (Hst : forall q,
            localStorage (syncProvider provider pg) !! getStorageKey q
            = localStorage pg !! getStorageKey q).
  { intros q. rewrite Es. apply lookup_insert_ne, not_eq_sym.
    apply getStorageKey_not_provider. }
  destruct (localStorage pg !! getStorageKey provider) as [[|a key]|] eqn:E.
  - destruct (syncProvider_not_stored provider pg (or_intror E))
      as (_ & _ & _ & Ek & _).
    apply (cache_in_storage_same pg); assumption.
  - assert (Hk : String a key <> "") by discriminate.
    rewrite (syncProvider_stored provider _ pg E Hk) in *.
    match goal with |- context [applyMaskedKey ?q ?k ?g] =>
      destruct (applyMaskedKey_truthy q k g Hk) as (Ek & _) end.
    eapply (cache_in_storage_set provider (String a key) pg);
      [exact Ek | | | exact IH].
    + intros _. rewrite Hst. exact E.
    + intros q _. apply Hst.
  - destruct (syncProvider_not_stored provider pg (or_introl E))
      as (_ & _ & _ & Ek & _).
    apply (cache_in_storage_same pg); assumption.
Qed.

Theorem reachable_cache_in_storage (pg : Page) :
  reachable pg -> cache_in_storage pg.
Proof.
  revert pg.
  assert (Hload : forall inst ls now log,
            cache_in_storage (load inst ls now log)).
  { intros inst ls now log. unfold load. cbn zeta.
    apply syncProvider_cache_in_storage.
    intros q key. cbn. rewrite lookup_empty. discriminate. }
  apply reachable_induction; [intros inst; apply Hload |].
  intros pg e _ IH.
  destruct e as [inst|p| | |typed|dt|i resp]; cbn [step].
  - apply Hload.
  - apply syncProvider_cache_in_storage, IH.
  - unfold onFocus. destruct (String.eqb _ _); exact IH.
  - unfold onBlur. destruct (keyCache pg !! _) as [key|] eqn:Ec; [| exact IH].
    destruct (_ && _) eqn:Eb; [| exact IH].
    apply andb_prop in Eb. destruct Eb as [_ Ht]. apply truthy_nonempty in Ht.
    destruct (applyMaskedKey_truthy (providerInput_value pg) key pg Ht)
      as (Ek & _).
    destruct (applyMaskedKey_frame (providerInput_value pg) key pg) as (Es & _).
    eapply (cache_in_storage_set _ key pg); [exact Ek | | | exact IH].
    + intros _. rewrite Es. apply IH; assumption.
    + intros q _. rewrite Es. reflexivity.
  - destruct (onInput_fields typed pg) as (_ & _ & _ & Ek & Es & _).
    eapply (cache_in_storage_set _ typed pg); [exact Ek | | | exact IH].
    + intros Ht. apply truthy_nonempty in Ht. rewrite Es, Ht.
      apply lookup_insert_eq.
    + intros q Hq. rewrite Es.
      destruct (JS.truthy typed);
        [apply lookup_insert_ne | apply lookup_delete_ne];
        apply getStorageKey_ne; congruence.
  - destruct (elapse_frame dt pg) as (Es & Ek & _).
    apply (cache_in_storage_same pg); [exact Ek | | exact IH].
    intros q. rewrite Es. reflexivity.
  - destruct (awaiting pg !! i) as [provider|]; [| exact IH].
    set (pg1 := set_awaiting _ pg).
    destruct (hydrateFromEnv_then_storage provider resp pg1)
      as [-> | (key & Hk & Es & Ek)]; [exact IH |].
    eapply (cache_in_storage_set provider key pg1); [exact Ek | | | exact IH].
    + intros _. rewrite Es. apply lookup_insert_eq.
    + intros q Hq. rewrite Es. apply lookup_insert_ne, getStorageKey_ne.
      congruence.
Qed.

Lemma reachable_cache_in_storage_witness : cache_in_storage openai_keyed.
Proof. apply (reachable_cache_in_storage openai_keyed openai_keyed_reachable). Defined.

(** *** What is sent *)

Definition known_name (q : string) : Prop := exists p, q = providerName p.

(** A request names one of the three providers, and a write carries a
    credential that is not empty. *)
Definition request_ok (r : Request) : Prop :=
  match r with
  | GetKey q => known_name q
  | PostKey q key => known_name q /\ key <> ""
  end.

Definition requests_ok (pg : Page) : Prop :=
  Forall request_ok (sent pg)
  /\ Forall (fun t => request_ok (write_of t)) (pending pg).

Lemma syncProvider_sent (provider : string) (pg : Page) :
  sent (syncProvider provider pg) = sent pg
  \/ sent (syncProvider provider pg) = (sent pg ++ [GetKey provider])%list.
Proof.
  destruct (localStorage pg !! getStorageKey provider) as [[|a key]|] eqn:E.
  - right. apply (syncProvider_not_stored provider pg (or_intror E)).
  - left. assert (Hk : String a key <> "") by discriminate.
    rewrite (syncProvider_stored provider _ pg E Hk).
    match goal with |- context [applyMaskedKey ?q ?k ?g] =>
      destruct (applyMaskedKey_frame q k g) as (_ & _ & -> & _) end.
    reflexivity.
  - right. apply (syncProvider_not_stored provider pg (or_introl E)).
Qed.

Lemma syncProvider_requests_ok (p : Provider) (pg : Page) :
  requests_ok pg -> requests_ok (syncProvider (providerName p) pg).
Proof.
  intros [Hs Hp].
  destruct (syncProvider_frame (providerName p) pg) as (_ & Et & _).
  destruct (timer_state_inv _ _ _ _ _ Et) as (_ & _ & _ & Ep).
  split; [| rewrite Ep; exact Hp].
  destruct (syncProvider_sent (providerName p) pg) as [-> | ->]; [exact Hs |].
  apply Forall_app. split; [exact Hs |].
  constructor; [exists p; reflexivity | constructor].
Qed.

Lemma load_requests_ok (inst : option string) (ls : Storage) (now : nat)
    (log : list Request) :
  (forall s, ls !! STORAGE_PROVIDER = Some s -> known_name s) ->
  Forall request_ok log ->
  requests_ok (load inst ls now log).
Proof.
  intros Hls Hlog.
  destruct (load_known inst ls now log Hls) as [[p Hp] _].
  destruct (load_frame inst ls now log) as (Et & _).
  destruct (timer_state_inv _ _ _ _ _ Et) as (_ & _ & _ & Epend).
  split; [| rewrite Epend; constructor].
  unfold load in *. cbn zeta in *.
  match goal with |- context [syncProvider ?q ?g] =>
    destruct (syncProvider_frame q g) as (_ & _ & _ & Eq);
    destruct (syncProvider_sent q g) as [-> | ->] end; [exact Hlog |].
  apply Forall_app. split; [exact Hlog |].
  constructor; [| constructor]. exists p. rewrite <- Hp, Eq. reflexivity.
Qed.

(** Every request the page has made or has scheduled in a reachable
    state names one of the three providers, and no write carries the
    empty string. *)
Theorem reachable_requests_ok (pg : Page) : reachable pg -> requests_ok pg.
Proof.
  revert pg. apply reachable_induction.
  - intros inst. apply load_requests_ok; [| constructor].
    intros s. rewrite lookup_empty. discriminate.
  - intros pg e Hr IH.
    destruct (reachable_invariant _ Hr) as [_ Hwf].
    destruct (reachable_known _ Hr) as [Hact Hsel].
    destruct IH as [Hs Hp].
    destruct e as [inst|p| | |typed|dt|i resp]; cbn [step].
    + apply load_requests_ok; assumption.
    + apply syncProvider_requests_ok. split; assumption.
    + unfold onFocus. destruct (String.eqb _ _); split; assumption.
    + unfold onBlur. destruct (keyCache pg !! _) as [key|]; [| split; assumption].
      destruct (_ && _); [| split; assumption].
      destruct (applyMaskedKey_frame (providerInput_value pg) key pg)
        as (_ & Et & Es & _).
      destruct (timer_state_inv _ _ _ _ _ Et) as (_ & _ & _ & Ep).
      split; [rewrite Es | rewrite Ep]; assumption.
    + destruct typed as [|a typed].
      * destruct (onInput_empty pg) as (Et & Es & _).
        destruct (timer_state_inv _ _ _ _ _ Et) as (_ & _ & _ & Ep).
        split; [rewrite Es | rewrite Ep]; assumption.
      * assert (Hne : String a typed <> "") by discriminate.
        destruct (onInput_nonempty _ pg Hne Hwf) as (Et & Es & _).
        destruct (timer_state_inv _ _ _ _ _ Et) as (_ & _ & _ & Ep).
        split; [rewrite Es; exact Hs |].
        rewrite Ep. constructor; [| constructor]. split; assumption.
    + unfold requests_ok.
      destruct Hwf as [_ [Hnone | (t & Ht & _ & _ & Hdue)]].
      * destruct (elapse_none dt pg Hnone) as [-> ->].
        split; [exact Hs | constructor].
      * destruct (le_lt_dec (timer_due t) (clock pg + dt)) as [Hle|Hlt].
        -- destruct (elapse_fires dt t pg Ht Hle) as [-> ->].
           split; [| constructor].
           apply Forall_app. split; [exact Hs |].
           rewrite Ht in Hp. constructor; [exact (Forall_inv Hp) | constructor].
        -- destruct (elapse_early dt t pg Ht Hlt) as [-> ->].
           rewrite <- Ht. split; assumption.
    + destruct (awaiting pg !! i) as [provider|]; [| split; assumption].
      set (pg1 := set_awaiting _ pg).
      destruct (hydrateFromEnv_then_frame provider resp pg1) as (Et & Es & _).
      destruct (timer_state_inv _ _ _ _ _ Et) as (_ & _ & _ & Ep).
      split; [rewrite Es | rewrite Ep]; assumption.
Qed.

Lemma reachable_requests_ok_witness :
  requests_ok (run [Input "sk-12345"; Elapse 500] openai_page).
Proof.
  apply (reachable_requests_ok (run [Input "sk-12345"; Elapse 500] openai_page)).
  apply reachable_run, openai_page_reachable.
Defined.

(** *** How many writes *)

(** The edits that schedule a write. *)
Definition is_edit (e : Event) : bool :=
  match e with
  | Input typed => JS.truthy typed
  | _ => false
  end.

Lemma step_write_budget (pg : Page) (e : Event) :
  timers_wf pg ->
  List.length (writes (sent (step pg e))) + List.length (pending (step pg e))
  <= List.length (writes (sent pg)) + List.length (pending pg)
     + (if is_edit e then 1 else 0).
Proof.
  intros Hwf.
  destruct e as [inst|p| | |typed|dt|i resp]; cbn [step is_edit].
  - destruct (load_frame inst (localStorage pg) (clock pg) (sent pg))
      as (Et & -> & _).
    destruct (timer_state_inv _ _ _ _ _ Et) as (_ & _ & _ & ->). simpl. lia.
  - unfold onProviderChange.
    destruct (syncProvider_frame (providerName p) pg) as (_ & Et & -> & _).
    destruct (timer_state_inv _ _ _ _ _ Et) as (_ & _ & _ & ->). lia.
  - unfold onFocus. destruct (String.eqb _ _); simpl; lia.
  - unfold onBlur. destruct (keyCache pg !! _) as [key|]; [| lia].
    destruct (_ && _); [| lia].
    destruct (applyMaskedKey_frame (providerInput_value pg) key pg)
      as (_ & Et & -> & _).
    destruct (timer_state_inv _ _ _ _ _ Et) as (_ & _ & _ & ->). lia.
  - destruct typed as [|a typed]; cbn [JS.truthy].
    + destruct (onInput_empty pg) as (Et & -> & _).
      destruct (timer_state_inv _ _ _ _ _ Et) as (_ & _ & _ & ->). lia.
    + assert (Hne : String a typed <> "") by discriminate.
      destruct (onInput_nonempty _ pg Hne Hwf) as (Et & -> & _).
      destruct (timer_state_inv _ _ _ _ _ Et) as (_ & _ & _ & ->). simpl. lia.
  - destruct Hwf as [_ [Hnone | (t & Ht & _ & _ & Hdue)]].
    + destruct (elapse_none dt pg Hnone) as [-> ->]. simpl. lia.
    + destruct (le_lt_dec (timer_due t) (clock pg + dt)) as [Hle|Hlt].
      * destruct (elapse_fires dt t pg Ht Hle) as [-> ->].
        unfold writes. rewrite omap_app, length_app, Ht. simpl. lia.
      * destruct (elapse_early dt t pg Ht Hlt) as [-> ->]. rewrite Ht. lia.
  - destruct (awaiting pg !! i) as [provider|]; [| lia].
    set (pg1 := set_awaiting _ pg).
    destruct (hydrateFromEnv_then_frame provider resp pg1) as (Et & -> & _).
    destruct (timer_state_inv _ _ _ _ _ Et) as (_ & _ & _ & ->). simpl. lia.
Qed.

(** From the first load on, the writes sent so far and the one that may
    be pending are together no more than the non-empty edits made. *)
Theorem writes_bounded_by_edits (appInstance : option string)
    (evs : list Event) :
  let pg := run evs (load appInstance ∅ 0 []) in
  List.length (writes (sent pg)) + List.length (pending pg)
  <= List.length (List.filter is_edit evs).
Proof.
  cbn zeta. induction evs as [|e evs IH] using rev_ind.
  - rewrite run_nil. destruct (load_frame appInstance ∅ 0 []) as (Et & -> & _).
    destruct (timer_state_inv _ _ _ _ _ Et) as (_ & _ & _ & ->). simpl. lia.
  - rewrite run_events_app, run_cons, run_nil.
    rewrite List.filter_app, length_app.
    pose proof (step_write_budget (run evs (load appInstance ∅ 0 [])) e) as H.
    assert (Hwf : timers_wf (run evs (load appInstance ∅ 0 []))).
    { apply reachable_invariant, reachable_run, reachable_load. }
    specialize (H Hwf). simpl. destruct (is_edit e); simpl; lia.
Qed.

(** *** Reloading the page *)

Lemma providerName_truthy (p : Provider) : JS.truthy (providerName p) = true.
Proof. destruct p; reflexivity. Qed.

Lemma providerName_inj (p q : Provider) :
  providerName p = providerName q -> p = q.
Proof. destruct p, q; simpl; intros E; congruence || discriminate E. Qed.

(** A reload under the same backend instance, right after an edit: the
    typed credential comes back from storage, masked, for the same
    provider; the write that the edit had scheduled is dropped with the
    old page and is never sent. *)
Theorem reload_keeps_typed_credential (pg : Page) (tok typed : string) :
  reachable pg -> localStorage pg !! STORAGE_SESSION = Some tok ->
  typed <> "" ->
  let pg' := run [Input typed; Reload (Some tok)] pg in
  providerInput_value pg' = providerInput_value pg
  /\ apiKeyVisible_value pg' = maskKey typed
  /\ apiKeyVisible_masked pg' = "true"
  /\ apiKeyInput_value pg' = typed
  /\ keyCache pg' !! providerInput_value pg = Some typed
  /\ localStorage pg' = localStorage (onInput typed pg)
  /\ pending pg' = []
  /\ (forall w, writes (sent (elapse w pg')) = writes (sent pg)).
Proof.
  intros Hr Htok Ht pg'. subst pg'. rewrite !run_cons, run_nil. cbn [step].
  destruct (reachable_known _ Hr) as [[p Hp] _].
  pose proof (reachable_selection _ Hr) as Hsel.
  destruct (reachable_invariant _ Hr) as [_ Hwf].
  destruct (onInput_nonempty typed pg Ht Hwf) as (_ & Es & _).
  destruct (onInput_fields typed pg) as (_ & _ & _ & _ & El & _).
  apply truthy_nonempty in Ht as Htr. rewrite Htr in El.
  set (pg1 := onInput typed pg) in *.
  assert (Hsess : localStorage pg1 !! STORAGE_SESSION = Some tok).
  { rewrite El, lookup_insert_ne by apply getStorageKey_not_session.
    exact Htok. }
  assert (Hsel1 : localStorage pg1 !! STORAGE_PROVIDER
                  = Some (providerInput_value pg)).
  { rewrite El, lookup_insert_ne by apply getStorageKey_not_provider.
    exact Hsel. }
  assert (Hkey : localStorage pg1 !! getStorageKey (providerInput_value pg)
                 = Some typed).
  { rewrite El. apply lookup_insert_eq. }
  destruct (load_frame (Some tok) (localStorage pg1) (clock pg1) (sent pg1))
    as (Et & Ew & _).
  destruct (timer_state_inv _ _ _ _ _ Et) as (_ & _ & _ & Epend).
  unfold load in *. cbn zeta in *. unfold getItem in *. cbn in *.
  rewrite (proj2 (ensureFresh_wipes_or_keeps_aux tok _) Hsess) in *.
  rewrite Hsel1 in *. rewrite Hp, providerName_truthy, <- Hp in *.
  match goal with |- context [syncProvider ?q ?g] =>
    rewrite (syncProvider_stored q typed g Hkey Ht) in *;
    set (g0 := g) in * end.
  match goal with |- context [applyMaskedKey ?q ?k ?g] =>
    destruct (applyMaskedKey_truthy q k g Ht) as (Ek & Ei & Ev & Em);
    destruct (applyMaskedKey_frame q k g) as (Els & _ & _ & _ & Epr) end.
  rewrite Ek, Ei, Ev, Em, Els, Epr, Epend. cbn.
  rewrite lookup_insert_eq.
  repeat split; try reflexivity.
  - apply insert_id, Hsel1.
  - intros w.
    match goal with |- context [elapse w ?g] =>
      destruct (elapse_none w g Epend) as [_ ->] end.
    rewrite Ew, Es. reflexivity.
Qed.

Lemma session_recorded (pg : Page) :
  reachable pg -> exists s, localStorage pg !! STORAGE_SESSION = Some s.
Proof.
  revert pg.
  assert (Hload : forall inst ls now log,
            exists s, localStorage (load inst ls now log) !! STORAGE_SESSION
                      = Some s).
  { intros inst ls now log. destruct (load_frame inst ls now log) as (_ & _ & ->).
    rewrite lookup_insert_ne by discriminate.
    unfold ensureFreshLocalStorage.
    destruct (strict_neq (ls !! STORAGE_SESSION) inst) eqn:E.
    - eexists. apply lookup_insert_eq.
    - destruct (ls !! STORAGE_SESSION) as [s|], inst; try discriminate E;
        eauto. }
  apply reachable_induction; [intros inst; apply Hload |].
  intros pg e _ [s IH].
  destruct e as [inst|p| | |typed|dt|i resp]; cbn [step].
  - apply Hload.
  - unfold onProviderChange.
    destruct (syncProvider_frame (providerName p) pg) as (-> & _).
    exists s. rewrite lookup_insert_ne by discriminate. exact IH.
  - unfold onFocus. destruct (String.eqb _ _); eauto.
  - unfold onBlur. destruct (keyCache pg !! _) as [key|]; [| eauto].
    destruct (_ && _); [| eauto].
    destruct (applyMaskedKey_frame (providerInput_value pg) key pg) as (-> & _).
    eauto.
  - destruct (onInput_fields typed pg) as (_ & _ & _ & _ & -> & _).
    exists s. destruct (JS.truthy typed).
    + rewrite lookup_insert_ne by apply getStorageKey_not_session. exact IH.
    + rewrite lookup_delete_ne by apply getStorageKey_not_session. exact IH.
  - destruct (elapse_frame dt pg) as (-> & _). eauto.
  - destruct (awaiting pg !! i) as [provider|]; [| eauto].
    set (pg1 := set_awaiting _ pg).
    destruct (hydrateFromEnv_then_storage provider resp pg1)
      as [-> | (key & _ & -> & _)]; [eauto |].
    exists s. rewrite lookup_insert_ne by apply getStorageKey_not_session.
    exact IH.
Qed.

Lemma reload_keeps_typed_credential_witness :
  let pg' := run [Input "sk-12345"; Reload (Some "A")] openai_page in
  providerInput_value pg' = providerInput_value openai_page
  /\ apiKeyVisible_value pg' = maskKey "sk-12345"
  /\ apiKeyVisible_masked pg' = "true"
  /\ apiKeyInput_value pg' = "sk-12345"
  /\ keyCache pg' !! providerInput_value openai_page = Some "sk-12345"
  /\ localStorage pg' = localStorage (onInput "sk-12345" openai_page)
  /\ pending pg' = []
  /\ (forall w, writes (sent (elapse w pg')) = writes (sent openai_page)).
Proof.
  apply (reload_keeps_typed_credential openai_page "A" "sk-12345");
    [exact openai_page_reachable | vm_compute; reflexivity | discriminate].
Defined.

(** A reload under another backend instance: the three credential
    entries are gone, the new token is recorded, the selection falls back
    to Gemini with an empty, unmasked field, and one read of the
    environment is sent for Gemini. *)
Theorem reload_new_instance_wipes (pg : Page) (tok : string) :
  localStorage pg !! STORAGE_SESSION <> Some tok ->
  let pg' := step pg (Reload (Some tok)) in
  (forall p, localStorage pg' !! getStorageKey (providerName p) = None)
  /\ localStorage pg' !! STORAGE_SESSION = Some tok
  /\ localStorage pg' !! STORAGE_PROVIDER = Some "gemini"
  /\ providerInput_value pg' = "gemini"
  /\ apiKeyVisible_value pg' = ""
  /\ apiKeyInput_value pg' = ""
  /\ apiKeyVisible_masked pg' = "false"
  /\ keyCache pg' = ∅
  /\ pending pg' = []
  /\ sent pg' = (sent pg ++ [GetKey "gemini"])%list.
Proof.
  intros Htok pg'. subst pg'. cbn [step].
  destruct (load_frame (Some tok) (localStorage pg) (clock pg) (sent pg))
    as (Et & _ & El).
  destruct (timer_state_inv _ _ _ _ _ Et) as (_ & _ & _ & Epend).
  rewrite Epend, El. clear Et Epend El.
  unfold load. cbn zeta. unfold getItem. cbn.
  rewrite (proj1 (ensureFresh_wipes_or_keeps_aux tok _) Htok).
  rewrite lookup_insert_ne by discriminate.
  replace (clearLocalState (localStorage pg) !! STORAGE_PROVIDER)
    with (@None string) by (unfold clearLocalState; now rewrite lookup_delete_eq).
  match goal with |- context [syncProvider "gemini" ?g] =>
    set (g0 := g);
    assert (Hk : localStorage g0 !! getStorageKey "gemini" = None) end.
  { subst g0. cbn. rewrite lookup_insert_ne by discriminate.
    apply (clearLocalState_provider_key _ gemini). }
  destruct (syncProvider_not_stored "gemini" g0 (or_introl Hk))
    as (Ev & Ei & Em & Ek & Es).
  destruct (syncProvider_frame "gemini" g0) as (_ & _ & _ & Ep).
  rewrite Ev, Ei, Em, Ek, Es, Ep. subst g0. cbn.
  split.
  { intros p. rewrite !lookup_insert_ne by (destruct p; discriminate).
    apply clearLocalState_provider_key. }
  rewrite lookup_insert_eq.
  rewrite lookup_insert_ne by discriminate. rewrite lookup_insert_eq.
  repeat split; reflexivity.
Qed.

Lemma reload_new_instance_wipes_witness :
  let pg' := step openai_keyed (Reload (Some "B")) in
  (forall p, localStorage pg' !! getStorageKey (providerName p) = None)
  /\ localStorage pg' !! STORAGE_SESSION = Some "B"
  /\ localStorage pg' !! STORAGE_PROVIDER = Some "gemini"
  /\ providerInput_value pg' = "gemini"
  /\ apiKeyVisible_value pg' = ""
  /\ apiKeyInput_value pg' = ""
  /\ apiKeyVisible_masked pg' = "false"
  /\ keyCache pg' = ∅
  /\ pending pg' = []
  /\ sent pg' = (sent openai_keyed ++ [GetKey "gemini"])%list.
Proof.
  apply (reload_new_instance_wipes openai_keyed "B").
  vm_compute. discriminate.
Defined.

(** *** A reply that arrives after the selection has moved on *)

Lemma syncProvider_awaiting (provider : string) (pg : Page) :
  (localStorage pg !! getStorageKey provider = None ->
   awaiting (syncProvider provider pg) = (awaiting pg ++ [provider])%list)
  /\ exists more, awaiting (syncProvider provider pg)
                  = (awaiting pg ++ more)%list.
Proof.
  unfold syncProvider, getItem. cbn.
  rewrite lookup_insert_ne by (apply not_eq_sym, getStorageKey_not_provider).
  destruct (localStorage pg !! getStorageKey provider) as [[|a key]|]; cbn.
  - split; [discriminate | eauto].
  - split; [discriminate |]. exists []. rewrite app_nil_r.
    unfold applyMaskedKey. reflexivity.
  - split; [reflexivity | eauto].
Qed.

(** The callback of a read writes the display and the hidden field
    without looking at the active provider: when the selection goes from
    [P], which has no stored credential, to [Q] and the environment then
    answers the read for [P] with a credential, the field shows the mask
    of that credential and the hidden field holds it while the active
    provider is [Q]; it is stored under [P], and the entry of [Q] is as
    before. *)
Theorem late_reply_fills_display (pg : Page) (P Q : Provider)
    (status : nat) (key : string) :
  P <> Q -> localStorage pg !! getStorageKey (providerName P) = None ->
  key <> "" ->
  let reply := Reply status (Some (DataObject (Some key))) in
  let pg' := run [ProviderChange P; ProviderChange Q;
                  Respond (List.length (awaiting pg)) reply] pg in
  providerInput_value pg' = providerName Q
  /\ apiKeyInput_value pg' = key
  /\ apiKeyVisible_value pg' = maskKey key
  /\ apiKeyVisible_masked pg' = "true"
  /\ localStorage pg' !! getStorageKey (providerName P) = Some key
  /\ localStorage pg' !! getStorageKey (providerName Q)
     = localStorage pg !! getStorageKey (providerName Q).
Proof.
  intros HPQ HP Hk reply pg'. subst reply pg'.
  rewrite !run_cons, run_nil. cbn [step]. unfold onProviderChange.
  set (pg1 := syncProvider (providerName P) pg).
  set (pg2 := syncProvider (providerName Q) pg1).
  destruct (syncProvider_awaiting (providerName P) pg) as [E1 _].
  specialize (E1 HP). fold pg1 in E1.
  destruct (syncProvider_awaiting (providerName Q) pg1) as [_ [more E2]].
  fold pg2 in E2.
  assert (Hlook : awaiting pg2 !! List.length (awaiting pg)
                  = Some (providerName P)).
  { rewrite E2, E1, <- app_assoc.
    rewrite lookup_app_r by reflexivity.
    rewrite Nat.sub_diag. reflexivity. }
  rewrite Hlook. rewrite hydrateFromEnv_then_some by exact Hk.
  match goal with |- context [applyMaskedKey ?q ?k ?g] =>
    destruct (applyMaskedKey_truthy q k g Hk) as (_ & Ei & Ev & Em);
    destruct (applyMaskedKey_frame q k g) as (Es & _ & _ & _ & Ep) end.
  cbn. rewrite Ei, Ev, Em, Es, Ep. cbn.
  destruct (syncProvider_frame (providerName Q) pg1) as (Es2 & _ & _ & Ep2).
  destruct (syncProvider_frame (providerName P) pg) as (Es1 & _).
  fold pg2 in Es2, Ep2. fold pg1 in Es1. rewrite Ep2, Es2, Es1.
  rewrite lookup_insert_eq.
  assert (Hne : getStorageKey (providerName P) <> getStorageKey (providerName Q)).
  { apply getStorageKey_ne. intros E. apply HPQ, providerName_inj, E. }
  rewrite lookup_insert_ne by exact Hne.
  rewrite !lookup_insert_ne
    by (apply not_eq_sym, getStorageKey_not_provider).
  auto 10.
Qed.

Lemma late_reply_fills_display_witness :
  let reply := Reply 200 (Some (DataObject (Some "xai-env"))) in
  let pg' := run [ProviderChange grok; ProviderChange openai;
                  Respond (List.length (awaiting openai_keyed)) reply]
               openai_keyed in
  providerInput_value pg' = providerName openai
  /\ apiKeyInput_value pg' = "xai-env"
  /\ apiKeyVisible_value pg' = maskKey "xai-env"
  /\ apiKeyVisible_masked pg' = "true"
  /\ localStorage pg' !! getStorageKey (providerName grok) = Some "xai-env"
  /\ localStorage pg' !! getStorageKey (providerName openai)
     = localStorage openai_keyed !! getStorageKey (providerName openai).
Proof.
  apply (late_reply_fills_display openai_keyed grok openai 200 "xai-env");
    [discriminate | vm_compute; reflexivity | discriminate].
Defined.

End KeyStore.

(** ** The reference-image stash (source lines 169-256) *)

Module ImageStash.

(** A candidate payload: a [File] with its name and declared media
    type. *)
Record File := { file_name : string; file_type : string }.

(** An entry of [imageItems].  An object URL is identified by the number
    of the [URL.createObjectURL] call that minted it. *)
Record ImageItem := { id : string; file : File; url : nat }.

(** The stash, the DOM state it is reconciled into, and the two sources
    of fresh values. *)
Record Stash := {
  imageItems : list ImageItem;
  imageInput_files : list File;               (* [imageInput.files] *)
  imagePreview_cards : list (nat * string);   (* image URL, [data-remove-id] *)
  imagePreview_hidden : bool;
  generateButton_disabled : bool;  (* also its two classes and [aria-disabled] *)
  randomCalls : nat;                          (* calls of [Math.random] *)
  urlsCreated : nat;                          (* calls of [URL.createObjectURL] *)
  revokedUrls : list nat
}.

Definition set_imageItems (v : list ImageItem) (st : Stash) : Stash :=
  {| imageItems := v; imageInput_files := imageInput_files st;
     imagePreview_cards := imagePreview_cards st;
     imagePreview_hidden := imagePreview_hidden st;
     generateButton_disabled := generateButton_disabled st;
     randomCalls := randomCalls st; urlsCreated := urlsCreated st;
     revokedUrls := revokedUrls st |}.

Definition set_imageInput_files (v : list File) (st : Stash) : Stash :=
  {| imageItems := imageItems st; imageInput_files := v;
     imagePreview_cards := imagePreview_cards st;
     imagePreview_hidden := imagePreview_hidden st;
     generateButton_disabled := generateButton_disabled st;
     randomCalls := randomCalls st; urlsCreated := urlsCreated st;
     revokedUrls := revokedUrls st |}.

Definition set_imagePreview (cards : list (nat * string)) (hidden : bool)
    (st : Stash) : Stash :=
  {| imageItems := imageItems st; imageInput_files := imageInput_files st;
     imagePreview_cards := cards; imagePreview_hidden := hidden;
     generateButton_disabled := generateButton_disabled st;
     randomCalls := randomCalls st; urlsCreated := urlsCreated st;
     revokedUrls := revokedUrls st |}.

Definition set_generateButton_disabled (v : bool) (st : Stash) : Stash :=
  {| imageItems := imageItems st; imageInput_files := imageInput_files st;
     imagePreview_cards := imagePreview_cards st;
     imagePreview_hidden := imagePreview_hidden st;
     generateButton_disabled := v;
     randomCalls := randomCalls st; urlsCreated := urlsCreated st;
     revokedUrls := revokedUrls st |}.

Definition revokeObjectURL (u : nat) (st : Stash) : Stash :=
  {| imageItems := imageItems st; imageInput_files := imageInput_files st;
     imagePreview_cards := imagePreview_cards st;
     imagePreview_hidden := imagePreview_hidden st;
     generateButton_disabled := generateButton_disabled st;
     randomCalls := randomCalls st; urlsCreated := urlsCreated st;
     revokedUrls := revokedUrls st ++ [u] |}.

(** [file.type.startsWith('image/')] *)
Definition is_image (f : File) : bool := JS.startsWith "image/" (file_type f).

Section WithRandom.

(** [random36 n] is what the [n]-th evaluation of
    [Math.random().toString(36)] returns in this run of the page. *)
Variable random36 : nat -> string.

(** [Math.random().toString(36).slice(2, 9)] at the [n]-th call. *)
Definition fresh_id (n : nat) : string := JS.slice 2 9 (random36 n).

Definition rebuildInputFiles (st : Stash) : Stash :=
  let dataTransfer :=
    foldl (fun items item => items ++ [file item]) [] (imageItems st) in
  set_imageInput_files dataTransfer st.

Definition updateGenerateState (st : Stash) : Stash :=
  let disabled := Nat.eqb (List.length (imageItems st)) 0 in
  set_generateButton_disabled disabled st.

Definition renderPreviews (st : Stash) : Stash :=
  let hidden := Nat.eqb (List.length (imageItems st)) 0 in
  let cards :=
    foldl (fun cards item => cards ++ [(url item, id item)]) []
      (imageItems st) in
  set_imagePreview cards hidden st.

(** The body of the [forEach] callback in [addFiles]. *)
Definition addFile (st : Stash) (f : File) : Stash :=
  if negb (is_image f) then st
  else if 6 <=? List.length (imageItems st) then st
  else
    let item := {| id := fresh_id (randomCalls st); file := f;
                   url := urlsCreated st |} in
    {| imageItems := imageItems st ++ [item];
       imageInput_files := imageInput_files st;
       imagePreview_cards := imagePreview_cards st;
       imagePreview_hidden := imagePreview_hidden st;
       generateButton_disabled := generateButton_disabled st;
       randomCalls := S (randomCalls st);
       urlsCreated := S (urlsCreated st);
       revokedUrls := revokedUrls st |}.

Definition addFiles (files : list File) (st : Stash) : Stash :=
  let st := foldl addFile st files in
  let st := rebuildInputFiles st in
  let st := renderPreviews st in
  updateGenerateState st.

Definition removeFileById (i : string) (st : Stash) : Stash :=
  let target := List.find (fun item => String.eqb (id item) i) (imageItems st) in
  let st :=
    match target with
    | Some item => revokeObjectURL (url item) st
    | None => st
    end in
  let st :=
    set_imageItems
      (List.filter (fun item => negb (String.eqb (id item) i)) (imageItems st))
      st in
  let st := rebuildInputFiles st in
  let st := renderPreviews st in
  updateGenerateState st.

(** The [drop] handler of the drop zone. *)
Definition onDrop (files : list File) (st : Stash) : Stash :=
  addFiles files st.

(** The [change] handler of the file input.  The browser has put the
    picked [files] into the input; assigning the empty string to the
    [value] of a file input empties its file list. *)
Definition onImageInputChange (files : list File) (st : Stash) : Stash :=
  let st := set_imageInput_files files st in
  let st := addFiles (imageInput_files st) st in
  set_imageInput_files [] st.

(** The [click] handler of the gallery, for a click on the remove
    button that carries [data-remove-id = i]. *)
Definition onRemoveClick (i : string) (st : Stash) : Stash :=
  removeFileById i st.

Inductive Event :=
| Drop (files : list File)
| Pick (files : list File)
| RemoveClick (i : string)
| AfterSwap.

Definition step (st : Stash) (e : Event) : Stash :=
  match e with
  | Drop files => onDrop files st
  | Pick files => onImageInputChange files st
  | RemoveClick i => onRemoveClick i st
  | AfterSwap => updateGenerateState st
  end.

Definition run (evs : list Event) (st : Stash) : Stash := foldl step st evs.

(** The stash when the script has run: the empty list, and
    [updateGenerateState] applied to it.  Whether the gallery starts
    hidden is the template's choice. *)
Definition start (hidden : bool) : Stash :=
  updateGenerateState
    {| imageItems := []; imageInput_files := [];
       imagePreview_cards := []; imagePreview_hidden := hidden;
       generateButton_disabled := false;
       randomCalls := 0; urlsCreated := 0; revokedUrls := [] |}.

Definition reachable (st : Stash) : Prop :=
  exists hidden evs, st = run evs (start hidden).

(** The ids in the stash are draws with pairwise different numbers. *)
Definition indexed (st : Stash) : Prop :=
  exists idxs,
    map id (imageItems st) = map fresh_id idxs
    /\ NoDup idxs
    /\ Forall (fun n => n < randomCalls st) idxs.

(** The id of [item] is one of the draws [lo], ..., [hi - 1]. *)
Definition drawn_between (lo hi : nat) (item : ImageItem) : Prop :=
  exists n, lo <= n < hi /\ id item = fresh_id n.

(** [st'] comes after [st]: its list is made of items [st] had, in
    their order, followed by items whose ids were drawn since. *)
Definition extends (st st' : Stash) : Prop :=
  randomCalls st <= randomCalls st'
  /\ exists kept new,
       imageItems st' = kept ++ new
       /\ kept `sublist_of` imageItems st
       /\ Forall (drawn_between (randomCalls st) (randomCalls st')) new.

(** The first [n] draws give pairwise different ids. *)
Definition draws_distinct (n : nat) : Prop :=
  forall i j, i < n -> j < n -> fresh_id i = fresh_id j -> i = j.

(** *** Reconciliation into the DOM *)

Lemma foldl_snoc {A B : Type} (f : A -> B) (l : list A) (acc : list B) :
  foldl (fun acc x => acc ++ [f x]) acc l = acc ++ map f l.
Proof.
  revert acc. induction l as [|x l IH]; intros acc; simpl.
  - symmetry. apply app_nil_r.
  - rewrite IH, <- app_assoc. reflexivity.
Qed.

(** The three refresh steps change neither the items nor the counters. *)
Lemma refresh_frame (st : Stash) :
  let st' := updateGenerateState (renderPreviews (rebuildInputFiles st)) in
  imageItems st' = imageItems st
  /\ randomCalls st' = randomCalls st
  /\ imageInput_files st' = map file (imageItems st)
  /\ imagePreview_cards st'
     = map (fun item => (url item, id item)) (imageItems st)
  /\ generateButton_disabled st' = Nat.eqb (List.length (imageItems st)) 0.
Proof.
  simpl. repeat split; try reflexivity.
  - apply (foldl_snoc file).
  - apply (foldl_snoc (fun item => (url item, id item))).
Qed.

(** *** Adding candidates *)

(** One candidate: rejected, and the stash is as before, or accepted, and
    one item with the next draw as its id is appended. *)
Lemma addFile_cases (f : File) (st : Stash) :
  (addFile st f = st
   /\ (is_image f = false \/ 6 <= List.length (imageItems st)))
  \/ (is_image f = true
      /\ List.length (imageItems st) < 6
      /\ imageItems (addFile st f)
         = imageItems st
           ++ [{| id := fresh_id (randomCalls st); file := f;
                  url := urlsCreated st |}]
      /\ randomCalls (addFile st f) = S (randomCalls st)).
Proof.
  unfold addFile. destruct (is_image f); cbn [negb]; [| left; auto].
  destruct (Nat.leb_spec 6 (List.length (imageItems st))) as [Hfull|Hroom].
  - left. auto.
  - right. simpl. auto.
Qed.

(** What the loop of [addFiles] does to the list and to the counter of
    random draws: the old items stay, and one item per accepted candidate
    is appended, in candidate order, with the next draws as ids. *)
Lemma foldl_addFile_spec (files : list File) (st : Stash) :
  exists new,
    imageItems (foldl addFile st files) = imageItems st ++ new
    /\ map file new
       = take (6 - List.length (imageItems st)) (List.filter is_image files)
    /\ map id new = map fresh_id (seq (randomCalls st) (List.length new))
    /\ randomCalls (foldl addFile st files)
       = randomCalls st + List.length new.
Proof.
  revert st. induction files as [|f files IH]; intros st.
  - exists []. simpl. rewrite app_nil_r, take_nil.
    repeat split; try reflexivity. lia.
  - simpl foldl. destruct (IH (addFile st f)) as (new & Ei & Ef & Ed & Er).
    simpl List.filter.
    destruct (addFile_cases f st)
      as [(E & Hrej) | (Himg & Hroom & Eitems & Ecalls)].
    + rewrite E in *. exists new. rewrite Ei, Er.
      destruct Hrej as [-> | Hfull]; [auto |].
      replace (6 - List.length (imageItems st)) with 0 in * by lia.
      rewrite take_0 in *. auto.
    + rewrite Himg. rewrite Eitems in Ei, Ef. rewrite Ecalls in Ed, Er.
      rewrite length_app in Ef. simpl in Ef.
      eexists (_ :: new). rewrite Ei, Er, <- app_assoc. simpl.
      split; [reflexivity |].
      replace (6 - List.length (imageItems st))
        with (S (6 - (List.length (imageItems st) + 1))) by lia.
      simpl. rewrite Ef, Ed. split; [reflexivity |]. split; [reflexivity | lia].
Qed.

Lemma addFiles_items (files : list File) (st : Stash) :
  imageItems (addFiles files st) = imageItems (foldl addFile st files)
  /\ randomCalls (addFiles files st) = randomCalls (foldl addFile st files).
Proof. unfold addFiles. reflexivity || (split; reflexivity). Qed.

Lemma removeFileById_items (i : string) (st : Stash) :
  imageItems (removeFileById i st)
  = List.filter (fun item => negb (String.eqb (id item) i)) (imageItems st)
  /\ randomCalls (removeFileById i st) = randomCalls st.
Proof.
  unfold removeFileById.
  destruct (List.find _ (imageItems st)); split; reflexivity.
Qed.

Lemma onImageInputChange_items (files : list File) (st : Stash) :
  imageItems (onImageInputChange files st) = imageItems (foldl addFile st files)
  /\ randomCalls (onImageInputChange files st)
     = randomCalls (foldl addFile st files).
Proof.
  unfold onImageInputChange. simpl.
  assert (H : forall fs st0,
             imageItems (foldl addFile (set_imageInput_files fs st0) files)
             = imageItems (foldl addFile st0 files)
             /\ randomCalls (foldl addFile (set_imageInput_files fs st0) files)
                = randomCalls (foldl addFile st0 files)).
  { intros fs. induction files as [|f fl IH]; intros st0; [split; reflexivity |].
    simpl foldl.
    assert (E : addFile (set_imageInput_files fs st0) f
                = set_imageInput_files fs (addFile st0 f)).
    { unfold addFile. simpl.
      destruct (negb (is_image f)); [reflexivity |].
      match goal with |- context [if ?b then _ else _] => destruct b end;
        reflexivity. }
    rewrite E. apply IH. }
  apply H.
Qed.

(** [is_image] holds of the files whose declared type begins with
    ["image/"]. *)
Lemma startsWith_prefix (p s : string) :
  JS.startsWith p s = true <-> exists t, s = p +:+ t.
Proof.
  revert s. induction p as [|a p IH]; intros s; simpl.
  - split; [intros _; exists s; reflexivity | reflexivity].
  - destruct s as [|b s].
    + split; [discriminate | intros [t Ht]; discriminate Ht].
    + destruct (Ascii.eqb_spec a b) as [->|Hne].
      * rewrite IH. split; intros [t Ht]; exists t.
        -- rewrite Ht. reflexivity.
        -- injection Ht as Ht. exact Ht.
      * split; [discriminate |].
        intros [t Ht]. injection Ht as Ha _. congruence.
Qed.

Lemma is_image_begins (f : File) :
  is_image f = true <-> exists rest, file_type f = "image/" +:+ rest.
Proof. apply startsWith_prefix. Qed.

(** *** The size bound *)

Lemma foldl_addFile_length (files : list File) (st : Stash) :
  List.length (imageItems st) <= 6 ->
  List.length (imageItems (foldl addFile st files))
  = Nat.min 6 (List.length (imageItems st)
               + List.length (List.filter is_image files)).
Proof.
  intros Hle. destruct (foldl_addFile_spec files st) as (new & Ei & Ef & _).
  rewrite Ei, length_app.
  rewrite <- (length_map file new), Ef, length_take. lia.
Qed.

Lemma List_filter_length {A : Type} (p : A -> bool) (l : list A) :
  List.length (List.filter p l) <= List.length l.
Proof.
  induction l as [|x l IH]; simpl; [lia |]. destruct (p x); simpl; lia.
Qed.

Lemma step_size (st : Stash) (e : Event) :
  List.length (imageItems st) <= 6 ->
  List.length (imageItems (step st e)) <= 6.
Proof.
  intros Hle. destruct e as [files|files|i|]; cbn [step].
  - unfold onDrop. destruct (addFiles_items files st) as [-> _].
    rewrite foldl_addFile_length by exact Hle. lia.
  - destruct (onImageInputChange_items files st) as [-> _].
    rewrite foldl_addFile_length by exact Hle. lia.
  - unfold onRemoveClick. destruct (removeFileById_items i st) as [-> _].
    pose proof (List_filter_length
                  (fun item => negb (String.eqb (id item) i)) (imageItems st)).
    lia.
  - exact Hle.
Qed.

Lemma reachable_size (st : Stash) :
  reachable st -> List.length (imageItems st) <= 6.
Proof.
  intros (hidden & evs & ->). unfold run.
  assert (H : List.length (imageItems (start hidden)) <= 6) by (simpl; lia).
  revert H. generalize (start hidden).
  induction evs as [|e evs IH]; intros st0 H; simpl; [exact H |].
  apply IH, step_size, H.
Qed.

(** C1. From every reachable stash, [addFiles] leaves at most 6 items,
    exactly [min 6 (prior size + number of image candidates)]; the prior
    items stay in place and the accepted candidates, the first image
    candidates that fit, follow them in candidate order, the others
    being dropped. *)
Theorem addFiles_bounded_append (st : Stash) (files : list File) :
  reachable st ->
  let st' := addFiles files st in
  List.length (imageItems st') <= 6
  /\ List.length (imageItems st')
     = Nat.min 6 (List.length (imageItems st)
                  + List.length (List.filter is_image files))
  /\ exists new,
       imageItems st' = imageItems st ++ new
       /\ map file new
          = take (6 - List.length (imageItems st))
              (List.filter is_image files).
Proof.
  intros Hr st'. subst st'. apply reachable_size in Hr.
  destruct (addFiles_items files st) as [-> _].
  rewrite foldl_addFile_length by exact Hr.
  split; [lia |]. split; [reflexivity |].
  destruct (foldl_addFile_spec files st) as (new & Ei & Ef & _).
  exists new. auto.
Qed.

Lemma addFiles_input_files (files : list File) (st : Stash) :
  imageInput_files (addFiles files st)
  = map file (imageItems (addFiles files st)).
Proof.
  unfold addFiles. cbn zeta.
  destruct (refresh_frame (foldl addFile st files)) as (-> & _ & -> & _).
  reflexivity.
Qed.

Lemma removeFileById_input_files (i : string) (st : Stash) :
  imageInput_files (removeFileById i st)
  = map file (imageItems (removeFileById i st)).
Proof.
  unfold removeFileById. cbn zeta.
  match goal with |- context [rebuildInputFiles ?s] =>
    destruct (refresh_frame s) as (-> & _ & -> & _) end.
  reflexivity.
Qed.

(** At the return of [addFiles] and of [removeFileById] the file list of
    the input is the list of the items' files, in the items' order,
    whatever the input held before.  This is what the two functions leave
    behind; what their callers do next is in [step]. *)
Theorem input_files_projection (files : list File) (i : string) (st : Stash) :
  imageInput_files (addFiles files st)
  = map file (imageItems (addFiles files st))
  /\ imageInput_files (removeFileById i st)
     = map file (imageItems (removeFileById i st)).
Proof.
  split; [apply addFiles_input_files | apply removeFileById_input_files].
Qed.

(** Along any sequence of drops and removals the input's list is the
    projection of the items at every point. *)
Lemma projection_along_drops (evs : list Event) (hidden : bool) :
  forallb (fun e => match e with Pick _ => false | _ => true end) evs = true ->
  imageInput_files (run evs (start hidden))
  = map file (imageItems (run evs (start hidden))).
Proof.
  unfold run.
  assert (H : imageInput_files (start hidden)
              = map file (imageItems (start hidden))) by reflexivity.
  revert H. generalize (start hidden).
  induction evs as [|e evs IH]; intros st H Hev; simpl; [exact H |].
  simpl in Hev. apply andb_prop in Hev. destruct Hev as [He Hev].
  apply IH; [| exact Hev].
  destruct e as [files|files|i|]; try discriminate He; cbn [step].
  - apply addFiles_input_files.
  - apply removeFileById_input_files.
  - exact H.
Qed.

(** The picker's handler goes on after [addFiles]: it resets the input,
    whose file list is then empty whatever the stash holds. *)
Remark onImageInputChange_input_files (files : list File) (st : Stash) :
  imageInput_files (onImageInputChange files st) = [].
Proof. reflexivity. Qed.

(** Removing an id that no item carries leaves the list as it is. *)
Lemma removeFileById_absent (i : string) (st : Stash) :
  i ∉ map id (imageItems st) ->
  imageItems (removeFileById i st) = imageItems st.
Proof.
  intros Hn. destruct (removeFileById_items i st) as [-> _].
  induction (imageItems st) as [|item l IH]; simpl; [reflexivity |].
  simpl in Hn. rewrite not_elem_of_cons in Hn. destruct Hn as [Hne Hn].
  destruct (String.eqb_spec (id item) i) as [E|_]; [congruence |].
  simpl. rewrite IH by exact Hn. reflexivity.
Qed.

(** *** Where the ids come from *)

(** Every event either appends items whose ids are the next draws, or
    filters the list by an id. *)
Lemma step_shape (st : Stash) (e : Event) :
  (exists new,
     imageItems (step st e) = imageItems st ++ new
     /\ map id new = map fresh_id (seq (randomCalls st) (List.length new))
     /\ randomCalls (step st e) = randomCalls st + List.length new)
  \/ (exists i,
        imageItems (step st e)
        = List.filter (fun item => negb (String.eqb (id item) i))
            (imageItems st)
        /\ randomCalls (step st e) = randomCalls st).
Proof.
  destruct e as [files|files|i|]; cbn [step].
  - left. unfold onDrop. destruct (addFiles_items files st) as [-> ->].
    destruct (foldl_addFile_spec files st) as (new & Ei & _ & Ed & Er).
    exists new. auto.
  - left. destruct (onImageInputChange_items files st) as [-> ->].
    destruct (foldl_addFile_spec files st) as (new & Ei & _ & Ed & Er).
    exists new. auto.
  - right. exists i. apply removeFileById_items.
  - left. exists []. simpl. rewrite app_nil_r. auto.
Qed.

Lemma List_filter_sublist {A : Type} (p : A -> bool) (l : list A) :
  List.filter p l `sublist_of` l.
Proof.
  induction l as [|x l IH]; simpl; [constructor |].
  destruct (p x); constructor; exact IH.
Qed.

Lemma filter_ids (i : string) (items : list ImageItem) (idxs : list nat) :
  map id items = map fresh_id idxs ->
  map id (List.filter (fun item => negb (String.eqb (id item) i)) items)
  = map fresh_id
      (List.filter (fun n => negb (String.eqb (fresh_id n) i)) idxs).
Proof.
  revert idxs. induction items as [|item items IH]; intros [|n idxs] E;
    try discriminate E; [reflexivity |].
  simpl in E. injection E as E1 E2. simpl. rewrite E1.
  destruct (negb (String.eqb (fresh_id n) i)); simpl;
    rewrite (IH idxs E2); congruence.
Qed.

Lemma indexed_step (st : Stash) (e : Event) :
  indexed st -> indexed (step st e).
Proof.
  intros (idxs & Eid & Hnd & Hlt). unfold indexed.
  destruct (step_shape st e) as [(new & -> & Ed & ->) | (i & -> & ->)].
  - exists (idxs ++ seq (randomCalls st) (List.length new)).
    rewrite !map_app, Eid, Ed. split; [reflexivity |]. split.
    + apply NoDup_app. split; [exact Hnd |]. split; [| apply NoDup_seq].
      intros n Hn Hs. rewrite Forall_forall in Hlt. apply Hlt in Hn.
      apply elem_of_seq in Hs. lia.
    + apply Forall_app. split.
      * eapply Forall_impl; [exact Hlt |]. simpl. intros n Hn. lia.
      * apply Forall_forall. intros n Hs. apply elem_of_seq in Hs. lia.
  - exists (List.filter (fun n => negb (String.eqb (fresh_id n) i)) idxs).
    split; [apply filter_ids, Eid |]. split.
    + eapply sublist_NoDup; [exact Hnd | apply List_filter_sublist].
    + rewrite Forall_forall in *. intros n Hn. apply Hlt.
      eapply elem_of_sublist; [exact Hn | apply List_filter_sublist].
Qed.

Lemma run_app (evs1 evs2 : list Event) (st : Stash) :
  run (evs1 ++ evs2) st = run evs2 (run evs1 st).
Proof. unfold run. apply foldl_app. Qed.

Lemma reachable_after (st : Stash) (evs : list Event) :
  reachable st -> reachable (run evs st).
Proof.
  intros (hidden & evs0 & ->). exists hidden, (evs0 ++ evs).
  symmetry. apply run_app.
Qed.

Lemma reachable_indexed (st : Stash) : reachable st -> indexed st.
Proof.
  intros (hidden & evs & ->). unfold run.
  assert (H : indexed (start hidden)).
  { exists []. simpl. repeat split; constructor. }
  revert H. generalize (start hidden).
  induction evs as [|e evs IH]; intros st0 H; simpl; [exact H |].
  apply IH, indexed_step, H.
Qed.

(** *** Items over time *)

Lemma extends_refl (st : Stash) : extends st st.
Proof.
  split; [lia |]. exists (imageItems st), [].
  rewrite app_nil_r. split; [reflexivity |]. split; [reflexivity | constructor].
Qed.

Lemma extends_trans (a b c : Stash) : extends a b -> extends b c -> extends a c.
Proof.
  intros (Hab & kb & nb & Eb & Sb & Fb) (Hbc & kc & nc & Ec & Sc & Fc).
  split; [lia |]. rewrite Eb in Sc.
  apply sublist_app_r in Sc. destruct Sc as (k1 & k2 & -> & S1 & S2).
  exists k1, (k2 ++ nc). rewrite Ec, <- app_assoc.
  split; [reflexivity |]. split; [etrans; eassumption |].
  apply Forall_app. split; apply Forall_forall; intros item Hin.
  - rewrite Forall_forall in Fb.
    destruct (Fb item (elem_of_sublist _ _ _ Hin S2)) as (n & Hn & E).
    exists n. split; [lia | exact E].
  - rewrite Forall_forall in Fc. destruct (Fc item Hin) as (n & Hn & E).
    exists n. split; [lia | exact E].
Qed.

Lemma map_eq_drawn (new : list ImageItem) (idxs : list nat) (lo hi : nat) :
  map id new = map fresh_id idxs ->
  Forall (fun n => lo <= n < hi) idxs ->
  Forall (drawn_between lo hi) new.
Proof.
  revert idxs. induction new as [|item new IH]; intros [|n idxs] E Hn;
    try discriminate E; constructor.
  - simpl in E. injection E as E1 _. exists n.
    split; [exact (Forall_inv Hn) | exact E1].
  - simpl in E. injection E as _ E2.
    apply (IH idxs E2). exact (Forall_inv_tail Hn).
Qed.

Lemma extends_step (st : Stash) (e : Event) : extends st (step st e).
Proof.
  destruct (step_shape st e) as [(new & Ei & Ed & Er) | (i & Ei & Er)].
  - split; [lia |]. exists (imageItems st), new.
    split; [exact Ei |]. split; [reflexivity |].
    apply (map_eq_drawn new _ _ _ Ed).
    apply Forall_forall. intros n Hs. apply elem_of_seq in Hs. lia.
  - split; [lia |]. exists (imageItems (step st e)), [].
    rewrite app_nil_r. split; [reflexivity |].
    split; [rewrite Ei; apply List_filter_sublist | constructor].
Qed.

Lemma extends_run (evs : list Event) (st : Stash) : extends st (run evs st).
Proof.
  revert st. induction evs as [|e evs IH]; intros st; [apply extends_refl |].
  eapply extends_trans; [apply (extends_step st e) | apply IH].
Qed.

(** C9, amended.  The code does not compare a new id with the ids in use
    or used before.  In a run whose draws give pairwise different ids,
    the ids in the stash are pairwise different, and an item that carries
    an id drawn earlier is an item the stash already had then: no item
    inserted later gets the id of a removed one. *)
Theorem ids_unique_while_draws_differ (st : Stash) (evs : list Event) :
  reachable st ->
  draws_distinct (randomCalls (run evs st)) ->
  NoDup (map id (imageItems (run evs st)))
  /\ forall item n,
       item ∈ imageItems (run evs st) ->
       n < randomCalls st -> id item = fresh_id n ->
       item ∈ imageItems st.
Proof.
  intros Hr Hd. split.
  - destruct (reachable_indexed _ (reachable_after st evs Hr))
      as (idxs & -> & Hnd & Hlt).
    apply NoDup_fmap_2_strong; [| exact Hnd].
    rewrite Forall_forall in Hlt. intros i j Hi Hj. apply Hd; auto.
  - intros item n Hin Hn Eid.
    destruct (extends_run evs st) as (Hle & kept & new & E & Hsub & Hnew).
    rewrite E in Hin. apply elem_of_app in Hin. destruct Hin as [Hk | Hw].
    + exact (elem_of_sublist _ _ _ Hk Hsub).
    + rewrite Forall_forall in Hnew.
      destruct (Hnew item Hw) as (m & Hm & Em).
      assert (n = m) by (apply Hd; [lia | lia | congruence]). lia.
Qed.

(** *** Further properties of the stash *)

(** The part of the stash the DOM is derived from. *)
Definition core (st : Stash) : list ImageItem * nat * nat * list nat :=
  (imageItems st, randomCalls st, urlsCreated st, revokedUrls st).

(** The three refresh steps at the end of [addFiles] and
    [removeFileById]. *)
Definition refresh (st : Stash) : Stash :=
  updateGenerateState (renderPreviews (rebuildInputFiles st)).

Lemma refresh_core (st : Stash) : core (refresh st) = core st.
Proof. reflexivity. Qed.

Lemma refresh_determined (a b : Stash) :
  core a = core b -> refresh a = refresh b.
Proof.
  unfold core, refresh, updateGenerateState, renderPreviews, rebuildInputFiles.
  destruct a, b. cbn. intros [= -> -> -> ->]. reflexivity.
Qed.

Lemma addFile_core (a b : Stash) (f : File) :
  core a = core b -> core (addFile a f) = core (addFile b f).
Proof.
  unfold core, addFile. destruct a, b.
  cbn [imageItems randomCalls urlsCreated revokedUrls].
  intros [= -> -> -> ->].
  destruct (negb (is_image f)); [reflexivity |].
  match goal with |- context [if ?c then _ else _] => destruct c end;
    reflexivity.
Qed.

Lemma foldl_addFile_core (files : list File) (a b : Stash) :
  core a = core b -> core (foldl addFile a files) = core (foldl addFile b files).
Proof.
  revert a b. induction files as [|f files IH]; intros a b E; [exact E |].
  simpl. apply IH, addFile_core, E.
Qed.

Lemma addFiles_refresh (files : list File) (st : Stash) :
  addFiles files st = refresh (foldl addFile st files).
Proof. reflexivity. Qed.

(** Adding two batches one after the other is adding them as one batch:
    the same items, ids, URLs and DOM state. *)
Theorem addFiles_batches_compose (files1 files2 : list File) (st : Stash) :
  addFiles files2 (addFiles files1 st) = addFiles (files1 ++ files2) st.
Proof.
  rewrite !addFiles_refresh, foldl_app.
  apply refresh_determined, foldl_addFile_core, refresh_core.
Qed.

Lemma addFile_rejects (f : File) (st : Stash) :
  is_image f = false \/ 6 <= List.length (imageItems st) ->
  addFile st f = st.
Proof.
  intros H. unfold addFile. destruct (is_image f); cbn [negb]; [| reflexivity].
  destruct H as [H | H]; [discriminate H |].
  destruct (Nat.leb_spec 6 (List.length (imageItems st))); [reflexivity | lia].
Qed.

(** A batch without images, or any batch for a stash that is full, adds
    nothing: the items stay and neither an id is drawn nor a preview URL
    minted. *)
Theorem addFiles_rejected_batch (files : list File) (st : Stash) :
  forallb (fun f => negb (is_image f)) files = true
  \/ 6 <= List.length (imageItems st) ->
  imageItems (addFiles files st) = imageItems st
  /\ randomCalls (addFiles files st) = randomCalls st
  /\ urlsCreated (addFiles files st) = urlsCreated st.
Proof.
  intros H. rewrite addFiles_refresh.
  assert (E : foldl addFile st files = st).
  { induction files as [|f files IH]; [reflexivity |].
    simpl. rewrite addFile_rejects.
    - apply IH. destruct H as [H | H]; [| right; exact H].
      left. simpl in H. apply andb_prop in H. apply H.
    - destruct H as [H | H]; [| right; exact H].
      left. simpl in H. apply andb_prop in H. destruct H as [H _].
      destruct (is_image f); [discriminate H | reflexivity]. }
  rewrite E. repeat split; reflexivity.
Qed.

(** *** Removal *)

Lemma removeFileById_refresh (i : string) (st : Stash) :
  removeFileById i st
  = refresh
      (set_imageItems
         (List.filter (fun item => negb (String.eqb (id item) i))
            (imageItems st))
         match List.find (fun item => String.eqb (id item) i) (imageItems st) with
         | Some item => revokeObjectURL (url item) st
         | None => st
         end).
Proof.
  unfold removeFileById. destruct (List.find _ (imageItems st)); reflexivity.
Qed.

Lemma find_absent (i : string) (l : list ImageItem) :
  i ∉ map id l ->
  List.find (fun item => String.eqb (id item) i) l = None.
Proof.
  induction l as [|item l IH]; intros Hn; [reflexivity |].
  simpl in Hn. rewrite not_elem_of_cons in Hn. destruct Hn as [Hne Hn].
  simpl. destruct (String.eqb_spec (id item) i) as [E|_]; [congruence |].
  apply IH, Hn.
Qed.

Lemma filter_absent (i : string) (l : list ImageItem) :
  i ∉ map id l ->
  List.filter (fun item => negb (String.eqb (id item) i)) l = l.
Proof.
  induction l as [|item l IH]; intros Hn; [reflexivity |].
  simpl in Hn. rewrite not_elem_of_cons in Hn. destruct Hn as [Hne Hn].
  simpl. destruct (String.eqb_spec (id item) i) as [E|_]; [congruence |].
  simpl. rewrite IH by exact Hn. reflexivity.
Qed.

(** Removing an id that no item carries: the items, the counters and
    the revoked URLs are as before, and the DOM is refreshed from them. *)
Theorem removeFileById_unknown_id (i : string) (st : Stash) :
  i ∉ map id (imageItems st) ->
  core (removeFileById i st) = core st
  /\ removeFileById i st = refresh st.
Proof.
  intros Hn. rewrite removeFileById_refresh.
  rewrite (find_absent i _ Hn), (filter_absent i _ Hn).
  assert (E : set_imageItems (imageItems st) st = st) by (destruct st; reflexivity).
  rewrite E. split; reflexivity.
Qed.

Lemma filter_present (i : string) (l : list ImageItem) :
  NoDup (map id l) -> i ∈ map id l ->
  exists before item after,
    l = before ++ item :: after
    /\ id item = i
    /\ List.find (fun item => String.eqb (id item) i) l = Some item
    /\ List.filter (fun item => negb (String.eqb (id item) i)) l
       = before ++ after.
Proof.
  induction l as [|x l IH]; intros Hnd Hin; [inversion Hin |].
  simpl in Hnd, Hin. apply NoDup_cons in Hnd. destruct Hnd as [Hx Hnd].
  simpl. destruct (String.eqb_spec (id x) i) as [E|Hne].
  - exists [], x, l. simpl. rewrite <- E in *.
    rewrite (filter_absent _ _ Hx). auto.
  - apply elem_of_cons in Hin. destruct Hin as [E | Hin]; [congruence |].
    destruct (IH Hnd Hin) as (before & item & after & -> & Ei & Ef & Eg).
    exists (x :: before), item, after. simpl. rewrite Eg. auto.
Qed.

(** After [removeFileById i] no item carries [i]; the items with other
    ids stay, in their order.  When the ids in the stash are pairwise
    different and one of them is [i], exactly that item leaves the list
    and exactly its preview URL is revoked. *)
Theorem removeFileById_removes (i : string) (st : Stash) :
  let st' := removeFileById i st in
  (i ∉ map id (imageItems st'))
  /\ (imageItems st' `sublist_of` imageItems st)
  /\ (forall item, item ∈ imageItems st -> id item <> i ->
                   item ∈ imageItems st')
  /\ (NoDup (map id (imageItems st)) -> i ∈ map id (imageItems st) ->
      exists before item after,
        imageItems st = before ++ item :: after
        /\ id item = i
        /\ imageItems st' = before ++ after
        /\ revokedUrls st' = revokedUrls st ++ [url item]).
Proof.
  intros st'. subst st'.
  destruct (removeFileById_items i st) as [Ei _].
  split; [| split; [| split]].
  - rewrite Ei. intros Hin. apply list_elem_of_fmap in Hin.
    destruct Hin as (item & Eid & Hin).
    apply list_elem_of_In, List.filter_In in Hin. destruct Hin as [_ Hb].
    destruct (String.eqb_spec (id item) i); [discriminate Hb | congruence].
  - rewrite Ei. apply List_filter_sublist.
  - intros item Hin Hne. rewrite Ei. apply list_elem_of_In, List.filter_In.
    split; [apply list_elem_of_In, Hin |].
    destruct (String.eqb_spec (id item) i); [contradiction | reflexivity].
  - intros Hnd Hin.
    destruct (filter_present i _ Hnd Hin)
      as (before & item & after & El & Eid & Ef & Eg).
    exists before, item, after. rewrite removeFileById_refresh, Ef, Eg.
    auto.
Qed.

(** *** The DOM follows the stash *)

Lemma refresh_fields (st : Stash) :
  imageItems (refresh st) = imageItems st
  /\ generateButton_disabled (refresh st)
     = Nat.eqb (List.length (imageItems st)) 0
  /\ imagePreview_cards (refresh st)
     = map (fun item => (url item, id item)) (imageItems st)
  /\ imageInput_files (refresh st) = map file (imageItems st).
Proof.
  destruct (refresh_frame st) as (Ei & _ & Ef & Ec & Ed). unfold refresh.
  auto.
Qed.

Lemma stash_induction (P : Stash -> Prop) :
  (forall hidden, P (start hidden)) ->
  (forall st e, reachable st -> P st -> P (step st e)) ->
  forall st, reachable st -> P st.
Proof.
  intros Hstart Hstep st (hidden & evs & ->).
  induction evs as [|e evs IH] using rev_ind; [apply Hstart |].
  rewrite run_app. apply Hstep; [| exact IH].
  exists hidden, evs. reflexivity.
Qed.

(** In every reachable state the submit button is disabled exactly when
    the stash is empty, and the gallery shows one card per item, in
    order, with the item's preview URL and its id on the remove button. *)
Theorem dom_follows_stash (st : Stash) :
  reachable st ->
  generateButton_disabled st = Nat.eqb (List.length (imageItems st)) 0
  /\ imagePreview_cards st
     = map (fun item => (url item, id item)) (imageItems st).
Proof.
  revert st. apply stash_induction; [intros hidden; split; reflexivity |].
  intros st e _ IH.
  destruct e as [files|files|i|]; cbn [step].
  - unfold onDrop. rewrite addFiles_refresh.
    destruct (refresh_fields (foldl addFile st files)) as (-> & -> & -> & _).
    split; reflexivity.
  - unfold onImageInputChange. cbn zeta. rewrite addFiles_refresh.
    cbn [generateButton_disabled imagePreview_cards imageItems
         set_imageInput_files].
    match goal with |- context [refresh ?s] =>
      destruct (refresh_fields s) as (-> & -> & -> & _) end.
    split; reflexivity.
  - unfold onRemoveClick. rewrite removeFileById_refresh.
    match goal with |- context [refresh ?s] =>
      destruct (refresh_fields s) as (-> & -> & -> & _) end.
    split; reflexivity.
  - split; [reflexivity | apply IH].
Qed.

(** *** Preview URLs *)

(** The preview URLs of the items in the stash are pairwise different
    and none of them has been revoked. *)
Definition urls_live (st : Stash) : Prop :=
  NoDup (map url (imageItems st))
  /\ Forall (fun item => url item ∉ revokedUrls st) (imageItems st).

Definition urls_bounded (st : Stash) : Prop :=
  Forall (fun item => url item < urlsCreated st) (imageItems st)
  /\ Forall (fun u => u < urlsCreated st) (revokedUrls st).

Lemma urls_ext (a b : Stash) :
  core a = core b -> urls_live a /\ urls_bounded a ->
  urls_live b /\ urls_bounded b.
Proof.
  unfold core, urls_live, urls_bounded. intros [= -> _ -> ->]. auto.
Qed.

Lemma addFile_urls (f : File) (st : Stash) :
  urls_live st /\ urls_bounded st ->
  urls_live (addFile st f) /\ urls_bounded (addFile st f).
Proof.
  intros [[Hnd Hlive] [Hb Hr]]. unfold addFile.
  destruct (negb (is_image f)); [repeat split; assumption |].
  match goal with |- context [if ?c then _ else _] => destruct c end;
    [repeat split; assumption |].
  unfold urls_live, urls_bounded. cbn [imageItems revokedUrls urlsCreated].
  rewrite map_app. cbn [map url].
  rewrite Forall_forall in Hb. rewrite Forall_forall in Hr.
  rewrite Forall_forall in Hlive.
  repeat split.
  - apply NoDup_app. split; [exact Hnd |]. split; [| apply NoDup_singleton].
    intros u Hu Hs. apply list_elem_of_singleton in Hs. subst u.
    apply list_elem_of_fmap in Hu. destruct Hu as (item & E & Hin).
    specialize (Hb item Hin). lia.
  - apply Forall_app. split; [apply Forall_forall; exact Hlive |].
    constructor; [| constructor]. cbn [url].
    intros Hin. specialize (Hr _ Hin). lia.
  - apply Forall_app. split.
    + apply Forall_forall. intros item Hin. specialize (Hb item Hin). lia.
    + constructor; [cbn [url]; lia | constructor].
  - apply Forall_forall. intros u Hin. specialize (Hr u Hin). lia.
Qed.

Lemma foldl_addFile_urls (files : list File) (st : Stash) :
  urls_live st /\ urls_bounded st ->
  urls_live (foldl addFile st files) /\ urls_bounded (foldl addFile st files).
Proof.
  revert st. induction files as [|f files IH]; intros st H; [exact H |].
  simpl. apply IH, addFile_urls, H.
Qed.

Lemma find_some_item (i : string) (l : list ImageItem) (item : ImageItem) :
  List.find (fun item => String.eqb (id item) i) l = Some item ->
  item ∈ l /\ id item = i.
Proof.
  intros H. apply List.find_some in H. destruct H as [Hin Hb].
  split; [apply list_elem_of_In, Hin |].
  destruct (String.eqb_spec (id item) i); [assumption | discriminate Hb].
Qed.

Lemma removeFileById_urls (i : string) (st : Stash) :
  urls_live st /\ urls_bounded st ->
  urls_live (removeFileById i st) /\ urls_bounded (removeFileById i st).
Proof.
  intros [[Hnd Hlive] [Hb Hr]]. rewrite removeFileById_refresh.
  eapply urls_ext; [symmetry; apply refresh_core |].
  set (kept := List.filter (fun item => negb (String.eqb (id item) i))
                 (imageItems st)).
  assert (Hsub : kept `sublist_of` imageItems st) by apply List_filter_sublist.
  assert (Hkept : forall item, item ∈ kept -> item ∈ imageItems st /\ id item <> i).
  { intros item Hin. split; [eapply elem_of_sublist; eassumption |].
    apply list_elem_of_In, List.filter_In in Hin. destruct Hin as [_ Hbool].
    destruct (String.eqb_spec (id item) i); [discriminate Hbool | assumption]. }
  rewrite Forall_forall in Hb. rewrite Forall_forall in Hr.
  rewrite Forall_forall in Hlive.
  destruct (List.find _ (imageItems st)) as [target|] eqn:Ef;
    unfold urls_live, urls_bounded;
    cbn [imageItems revokedUrls urlsCreated set_imageItems revokeObjectURL].
  - apply find_some_item in Ef. destruct Ef as [Hin Hid].
    repeat split.
    + eapply sublist_NoDup; [exact Hnd |]. apply (fmap_sublist url), Hsub.
    + apply Forall_forall. intros item Hk. destruct (Hkept item Hk) as [Hi Hne].
      rewrite not_elem_of_app. split; [apply Hlive, Hi |].
      rewrite list_elem_of_singleton. intros Eu.
      assert (item = target); [| congruence].
      apply list_elem_of_lookup in Hi, Hin.
      destruct Hi as [n Hn], Hin as [m Hm].
      assert (n = m); [| congruence].
      apply (NoDup_lookup (map url (imageItems st)) n m (url item) Hnd);
        rewrite list_lookup_fmap; [rewrite Hn | rewrite Hm]; simpl;
        [reflexivity | congruence].
    + apply Forall_forall. intros item Hk. apply Hb, Hkept, Hk.
    + apply Forall_app. split; [apply Forall_forall; exact Hr |].
      constructor; [apply Hb, Hin | constructor].
  - repeat split.
    + eapply sublist_NoDup; [exact Hnd |]. apply (fmap_sublist url), Hsub.
    + apply Forall_forall. intros item Hk. apply Hlive, Hkept, Hk.
    + apply Forall_forall. intros item Hk. apply Hb, Hkept, Hk.
    + apply Forall_forall. exact Hr.
Qed.

Lemma reachable_urls (st : Stash) :
  reachable st -> urls_live st /\ urls_bounded st.
Proof.
  revert st. apply stash_induction.
  - intros hidden. repeat split; constructor.
  - intros st e _ IH.
    destruct e as [files|files|i|]; cbn [step].
    + unfold onDrop. rewrite addFiles_refresh.
      eapply urls_ext; [symmetry; apply refresh_core |].
      apply foldl_addFile_urls, IH.
    + unfold onImageInputChange. cbn zeta. rewrite addFiles_refresh.
      eapply urls_ext;
        [| apply (foldl_addFile_urls files (set_imageInput_files files st)), IH].
      reflexivity.
    + apply removeFileById_urls, IH.
    + exact IH.
Qed.

(** In every reachable state each item has a preview URL of its own,
    and no item in the stash has a revoked preview URL. *)
Theorem preview_urls_live (st : Stash) : reachable st -> urls_live st.
Proof. intros Hr. apply (reachable_urls st Hr). Qed.

(** *** The file picker *)

(** When the picker delivers an image and the stash has room, the
    handler ends with the image in the stash and the submit button
    enabled, and with an empty file list in the input. *)
Theorem picker_leaves_input_empty (f : File) (rest : list File) (st : Stash) :
  is_image f = true -> List.length (imageItems st) < 6 ->
  let st' := onImageInputChange (f :: rest) st in
  f ∈ map file (imageItems st')
  /\ generateButton_disabled st' = false
  /\ imageInput_files st' = [].
Proof.
  intros Himg Hroom st'. subst st'.
  destruct (onImageInputChange_items (f :: rest) st) as [Ei _].
  assert (Hin : f ∈ map file (imageItems (onImageInputChange (f :: rest) st))).
  { rewrite Ei. simpl foldl.
    destruct (foldl_addFile_spec rest (addFile st f)) as (new & -> & _).
    destruct (addFile_cases f st) as [(_ & [H | H]) | (_ & _ & -> & _)];
      [congruence | lia |].
    rewrite !map_app. cbn [map file]. set_solver. }
  split; [exact Hin |]. split; [| reflexivity].
  assert (Ed : generateButton_disabled (onImageInputChange (f :: rest) st)
               = Nat.eqb (List.length
                            (imageItems (onImageInputChange (f :: rest) st))) 0).
  { unfold onImageInputChange. cbn zeta. rewrite addFiles_refresh.
    cbn [generateButton_disabled imageItems set_imageInput_files].
    match goal with |- context [refresh ?s] =>
      destruct (refresh_fields s) as (-> & -> & _) end.
    reflexivity. }
  rewrite Ed.
  destruct (imageItems (onImageInputChange (f :: rest) st));
    [inversion Hin | reflexivity].
Qed.

End WithRandom.

Arguments addFiles : simpl never.
Arguments removeFileById : simpl never.

(** *** Concrete runs *)

Definition png (name : string) : File :=
  {| file_name := name; file_type := "image/png" |}.

Definition pdf (name : string) : File :=
  {| file_name := name; file_type := "application/pdf" |}.

(** Draws that differ: ["0.a"], ["0.aa"], ["0.aaa"], ... *)
Definition varied_random (n : nat) : string := "0." +:+ JS.repeat "a" (S n).

(** Draws that repeat: [Math.random()] returns 0.5, which prints as
    ["0.i"] in base 36, every time. *)
Definition repeated_random (n : nat) : string := "0.i".

(** The scenario of the specification: two images and one other file. *)
Example addFiles_scenario :
  let st := addFiles varied_random [png "A"; png "B"; pdf "C"] (start true) in
  map file (imageItems st) = [png "A"; png "B"]
  /\ imageInput_files st = [png "A"; png "B"]
  /\ generateButton_disabled st = false.
Proof. vm_compute. auto. Qed.

Definition two_images : Stash :=
  run varied_random [Drop [png "A"; png "B"]] (start true).

Lemma two_images_reachable : reachable varied_random two_images.
Proof. exists true, [Drop [png "A"; png "B"]]. reflexivity. Defined.

Lemma addFiles_bounded_append_witness :
  let files := [png "C"; pdf "D"; png "E"; png "F"; png "G"; png "H"] in
  let st' := addFiles varied_random files two_images in
  List.length (imageItems st') <= 6
  /\ List.length (imageItems st')
     = Nat.min 6 (List.length (imageItems two_images)
                  + List.length (List.filter is_image files))
  /\ exists new,
       imageItems st' = imageItems two_images ++ new
       /\ map file new
          = take (6 - List.length (imageItems two_images))
              (List.filter is_image files).
Proof.
  apply (addFiles_bounded_append varied_random two_images).
  exact two_images_reachable.
Defined.

(** C9, as stated, fails: when two draws give the same id, two items of
    the stash carry it. *)
Lemma ids_collide_counterexample :
  let st := run repeated_random [Drop [png "A"; png "B"]] (start true) in
  reachable repeated_random st
  /\ map id (imageItems st) = ["i"; "i"]
  /\ ~ NoDup (map id (imageItems st)).
Proof.
  cbn zeta. split; [exists true, [Drop [png "A"; png "B"]]; reflexivity |].
  assert (E : map id (imageItems
                 (run repeated_random [Drop [png "A"; png "B"]] (start true)))
              = ["i"; "i"]) by (vm_compute; reflexivity).
  split; [exact E |]. rewrite E. intros H.
  apply NoDup_cons in H. destruct H as [H _]. apply H. constructor.
Qed.

(** And the id of a removed item comes back on the next insertion. *)
Example id_reused_after_removal :
  let st := run repeated_random
              [Drop [png "A"]; RemoveClick "i"; Drop [png "B"]] (start true) in
  map id (imageItems st) = ["i"] /\ map file (imageItems st) = [png "B"].
Proof. vm_compute. auto. Qed.

Definition one_image : Stash :=
  run varied_random [Drop [png "A"]] (start true).

Lemma one_image_reachable : reachable varied_random one_image.
Proof. exists true, [Drop [png "A"]]. reflexivity. Defined.

Lemma varied_random_distinct_2 : draws_distinct varied_random 2.
Proof.
  intros i j Hi Hj E.
  destruct i as [|[|i]]; [| | lia]; destruct j as [|[|j]]; try lia;
    vm_compute in E; discriminate E.
Defined.

Lemma ids_unique_while_draws_differ_witness :
  let evs := [RemoveClick "a"; Drop [png "B"]] in
  NoDup (map id (imageItems (run varied_random evs one_image)))
  /\ forall item n,
       item ∈ imageItems (run varied_random evs one_image) ->
       n < randomCalls one_image -> id item = fresh_id varied_random n ->
       item ∈ imageItems one_image.
Proof.
  apply (ids_unique_while_draws_differ varied_random one_image
           [RemoveClick "a"; Drop [png "B"]]).
  - exact one_image_reachable.
  - exact varied_random_distinct_2.
Defined.

(** *** Concrete runs for the further properties *)

Definition six_images : Stash :=
  run varied_random
    [Drop [png "A"; png "B"; png "C"; png "D"; png "E"; png "F"]] (start true).

Lemma six_images_reachable : reachable varied_random six_images.
Proof.
  exists true, [Drop [png "A"; png "B"; png "C"; png "D"; png "E"; png "F"]].
  reflexivity.
Defined.

Lemma addFiles_rejected_batch_witness :
  imageItems (addFiles varied_random [png "G"] six_images)
  = imageItems six_images
  /\ randomCalls (addFiles varied_random [png "G"] six_images)
     = randomCalls six_images
  /\ urlsCreated (addFiles varied_random [png "G"] six_images)
     = urlsCreated six_images.
Proof.
  apply (addFiles_rejected_batch varied_random [png "G"] six_images).
  right. vm_compute. lia.
Defined.

Lemma two_images_ids : map id (imageItems two_images) = ["a"; "aa"].
Proof. vm_compute. reflexivity. Defined.

Lemma removeFileById_unknown_id_witness :
  core (removeFileById "zz" two_images) = core two_images
  /\ removeFileById "zz" two_images = refresh two_images.
Proof.
  apply (removeFileById_unknown_id "zz" two_images).
  rewrite two_images_ids. intros H.
  apply elem_of_cons in H. destruct H as [H | H]; [discriminate H |].
  apply elem_of_cons in H. destruct H as [H | H]; [discriminate H |].
  inversion H.
Defined.

Lemma removeFileById_removes_witness :
  ("a" ∉ map id (imageItems (removeFileById "a" two_images)))
  /\ (imageItems (removeFileById "a" two_images)
        `sublist_of` imageItems two_images)
  /\ (forall item, item ∈ imageItems two_images -> id item <> "a" ->
                   item ∈ imageItems (removeFileById "a" two_images))
  /\ exists before item after,
       imageItems two_images = before ++ item :: after
       /\ id item = "a"
       /\ imageItems (removeFileById "a" two_images) = before ++ after
       /\ revokedUrls (removeFileById "a" two_images)
          = revokedUrls two_images ++ [url item].
Proof.
  destruct (removeFileById_removes "a" two_images) as (H1 & H2 & H3 & H4).
  split; [exact H1 |]. split; [exact H2 |]. split; [exact H3 |].
  apply H4; rewrite two_images_ids.
  - apply NoDup_cons. split; [| apply NoDup_singleton].
    intros H. apply list_elem_of_singleton in H. discriminate H.
  - apply elem_of_cons. left. reflexivity.
Defined.

Lemma dom_follows_stash_witness :
  generateButton_disabled two_images
  = Nat.eqb (List.length (imageItems two_images)) 0
  /\ imagePreview_cards two_images
     = map (fun item => (url item, id item)) (imageItems two_images).
Proof. apply (dom_follows_stash varied_random two_images two_images_reachable). Defined.

Lemma preview_urls_live_witness : urls_live two_images.
Proof. apply (preview_urls_live varied_random two_images two_images_reachable). Defined.

Lemma picker_leaves_input_empty_witness :
  let st' := onImageInputChange varied_random (png "C" :: [pdf "D"]) two_images in
  png "C" ∈ map file (imageItems st')
  /\ generateButton_disabled st' = false
  /\ imageInput_files st' = [].
Proof.
  apply (picker_leaves_input_empty varied_random (png "C") [pdf "D"] two_images);
    [reflexivity | vm_compute; lia].
Defined.

(** C6. The input's file list is not the projection of the stash after
    every mutation: when the first image arrives through the file picker,
    the change handler (source lines 245-248) ends with the image in the
    stash and no file in the input, because it assigns [''] to the input's
    value after [addFiles] has rebuilt the list.  The same image arriving
    by a drop (lines 241-244) leaves the input holding it. *)
Theorem picker_path_loses_projection :
  let picked := run varied_random [Pick [png "A"]] (start true) in
  let dropped := run varied_random [Drop [png "A"]] (start true) in
  reachable varied_random picked
  /\ map file (imageItems picked) = [png "A"]
  /\ imageInput_files picked = []
  /\ imageInput_files picked <> map file (imageItems picked)
  /\ map file (imageItems dropped) = [png "A"]
  /\ imageInput_files dropped = map file (imageItems dropped).
Proof.
  cbn zeta.
  assert (Ei : map file (imageItems
                 (run varied_random [Pick [png "A"]] (start true)))
               = [png "A"]) by (vm_compute; reflexivity).
  assert (Ef : imageInput_files
                 (run varied_random [Pick [png "A"]] (start true)) = [])
    by reflexivity.
  split; [exists true, [Pick [png "A"]]; reflexivity |].
  split; [exact Ei |]. split; [exact Ef |].
  split; [rewrite Ei, Ef; discriminate |].
  split; vm_compute; reflexivity.
Qed.

End ImageStash.

(** ** The family selector (source lines 135-152) *)

Module FamilySelector.

(** A button of class [family-button]: its [data-family-id] attribute,
    [None] when the attribute is missing and [dataset.familyId] is
    [undefined], and whether it carries the class [active]. *)
Record FamilyButton := { familyId : option string; active : bool }.

(** A call of [window.htmx.ajax]. *)
Record Ajax := { verb : string; path : string; swapTarget : string }.

Record Families := {
  familyInput_value : string;
  familyButtons : list FamilyButton;
  htmx : bool;                       (* [window.htmx] is there *)
  ajaxCalls : list Ajax
}.

(** The string a value turns into in a template or as a field's value. *)
Definition to_text (v : option string) : string :=
  match v with
  | Some s => s
  | None => "undefined"
  end.

(** [a === b] on values that are strings or [undefined]. *)
Definition strict_eq (a b : option string) : bool :=
  match a, b with
  | Some s, Some t => String.eqb s t
  | None, None => true
  | _, _ => false
  end.

(** [btn.classList.toggle('active', force)] *)
Definition toggle_active (force : bool) (btn : FamilyButton) : FamilyButton :=
  {| familyId := familyId btn; active := force |}.

Definition setActiveFamily (fid : option string) (st : Families) : Families :=
  let buttons :=
    map (fun btn => toggle_active (strict_eq (familyId btn) fid) btn)
      (familyButtons st) in
  let calls :=
    if htmx st
    then ajaxCalls st
         ++ [{| verb := "GET";
                path := "/partials/checkpoints?family_id=" +:+ to_text fid;
                swapTarget := "#checkpoint-container" |}]
    else ajaxCalls st in
  {| familyInput_value := to_text fid; familyButtons := buttons;
     htmx := htmx st; ajaxCalls := calls |}.

(** The [click] handler of the [n]-th family button. *)
Definition onFamilyClick (n : nat) (st : Families) : Families :=
  match familyButtons st !! n with
  | Some btn => setActiveFamily (familyId btn) st
  | None => st
  end.

Lemma strict_eq_true (a b : option string) : strict_eq a b = true <-> a = b.
Proof.
  destruct a as [s|], b as [t|]; simpl; try (split; congruence).
  destruct (String.eqb_spec s t); split; congruence.
Qed.

(** A click on a family button makes active the buttons that carry the
    clicked button's family id and no others, puts that id into the
    hidden field, and asks for the checkpoints of the family if and only
    if htmx is loaded.  When the ids of the buttons are pairwise
    different, the clicked button is the only active one. *)
Theorem family_click_selects (n : nat) (btn : FamilyButton) (st : Families) :
  familyButtons st !! n = Some btn ->
  let st' := onFamilyClick n st in
  familyInput_value st' = to_text (familyId btn)
  /\ map familyId (familyButtons st') = map familyId (familyButtons st)
  /\ (forall k b, familyButtons st' !! k = Some b ->
                  active b = true <-> familyId b = familyId btn)
  /\ (NoDup (map familyId (familyButtons st)) ->
      forall k b, familyButtons st' !! k = Some b ->
                  active b = true <-> k = n)
  /\ ajaxCalls st'
     = (if htmx st
        then ajaxCalls st
             ++ [{| verb := "GET";
                    path := "/partials/checkpoints?family_id="
                            +:+ to_text (familyId btn);
                    swapTarget := "#checkpoint-container" |}]
        else ajaxCalls st).
Proof.
  intros Hn st'. subst st'. unfold onFamilyClick. rewrite Hn.
  unfold setActiveFamily. cbn.
  assert (Hlook : forall k b,
            map (fun b0 => toggle_active (strict_eq (familyId b0) (familyId btn)) b0)
              (familyButtons st) !! k = Some b ->
            exists b0, familyButtons st !! k = Some b0
                       /\ familyId b = familyId b0
                       /\ active b = strict_eq (familyId b0) (familyId btn)).
  { intros k b H. rewrite list_lookup_fmap in H.
    destruct (familyButtons st !! k) as [b0|]; [| discriminate H].
    injection H as <-. exists b0. auto. }
  split; [reflexivity |]. split.
  { rewrite map_map. apply map_ext. reflexivity. }
  split; [| split; [| reflexivity]].
  - intros k b H. destruct (Hlook k b H) as (b0 & _ & -> & ->).
    apply strict_eq_true.
  - intros Hnd k b H. destruct (Hlook k b H) as (b0 & Hk & _ & ->).
    rewrite strict_eq_true. split.
    + intros E. apply (NoDup_lookup _ k n (familyId b0) Hnd);
        rewrite list_lookup_fmap; [rewrite Hk | rewrite Hn]; simpl; congruence.
    + intros ->. congruence.
Qed.

Definition three_families : Families :=
  {| familyInput_value := "sdxl";
     familyButtons :=
       [{| familyId := Some "sd15"; active := false |};
        {| familyId := Some "sdxl"; active := true |};
        {| familyId := Some "flux"; active := false |}];
     htmx := true; ajaxCalls := [] |}.

Lemma family_click_selects_witness :
  let btn := {| familyId := Some "flux"; active := false |} in
  let st' := onFamilyClick 2 three_families in
  familyInput_value st' = to_text (familyId btn)
  /\ map familyId (familyButtons st') = map familyId (familyButtons three_families)
  /\ (forall k b, familyButtons st' !! k = Some b ->
                  active b = true <-> familyId b = familyId btn)
  /\ (forall k b, familyButtons st' !! k = Some b ->
                  active b = true <-> k = 2)
  /\ ajaxCalls st'
     = (if htmx three_families
        then ajaxCalls three_families
             ++ [{| verb := "GET";
                    path := "/partials/checkpoints?family_id="
                            +:+ to_text (familyId btn);
                    swapTarget := "#checkpoint-container" |}]
        else ajaxCalls three_families).
Proof.
  destruct (family_click_selects 2 {| familyId := Some "flux"; active := false |}
              three_families eq_refl) as (H1 & H2 & H3 & H4 & H5).
  split; [exact H1 |]. split; [exact H2 |]. split; [exact H3 |].
  split; [| exact H5].
  apply H4. simpl.
  repeat (apply NoDup_cons; split;
          [intros H; repeat (apply elem_of_cons in H; destruct H as [H | H];
                             [discriminate H |]); inversion H |]).
  apply NoDup_nil_2.
Defined.

(** Selecting the family that is already selected leaves the hidden
    field and the buttons as they are, and asks for its checkpoints once
    more. *)
Theorem family_reselect (fid : option string) (st : Families) :
  let once := setActiveFamily fid st in
  let twice := setActiveFamily fid once in
  familyInput_value twice = familyInput_value once
  /\ familyButtons twice = familyButtons once
  /\ List.length (ajaxCalls twice)
     = List.length (ajaxCalls st) + (if htmx st then 2 else 0).
Proof.
  unfold setActiveFamily. cbn. split; [reflexivity |]. split.
  - rewrite map_map. apply map_ext. reflexivity.
  - destruct (htmx st); [rewrite !length_app; simpl; lia | lia].
Qed.

End FamilySelector.

(** ** The submit button's busy state (source lines 284-311) *)

Module BusyButton.

Record Button := {
  loading : bool;
  buttonIcon_hidden : bool;          (* the icon carries the class [hidden] *)
  buttonLabel_textContent : string
}.

Definition setButtonLoading (isLoading : bool) (st : Button) : Button :=
  if Bool.eqb (loading st) isLoading then st
  else if isLoading
       then {| loading := isLoading; buttonIcon_hidden := true;
               buttonLabel_textContent := "Synthesizing Prompt..." |}
       else {| loading := isLoading; buttonIcon_hidden := false;
               buttonLabel_textContent := "Generate Perfect Prompt" |}.

(** The two htmx events the script listens to; [fromForm] is
    [event.target === form]. *)
Inductive Event :=
| BeforeRequest (fromForm : bool)
| AfterRequest (fromForm : bool).

Definition step (st : Button) (e : Event) : Button :=
  match e with
  | BeforeRequest fromForm => if fromForm then setButtonLoading true st else st
  | AfterRequest fromForm => if fromForm then setButtonLoading false st else st
  end.

Definition run (evs : list Event) (st : Button) : Button := foldl step st evs.

(** The button as the template renders it; the script starts with
    [loading = false]. *)
Definition start (iconHidden : bool) (label : string) : Button :=
  {| loading := false; buttonIcon_hidden := iconHidden;
     buttonLabel_textContent := label |}.

(** Whether the last event that came from the form, if any, was the
    start of a request. *)
Fixpoint busy_after (evs : list Event) (busy : bool) : bool :=
  match evs with
  | [] => busy
  | BeforeRequest true :: evs' => busy_after evs' true
  | AfterRequest true :: evs' => busy_after evs' false
  | _ :: evs' => busy_after evs' busy
  end.

(** The button's label and icon agree with the flag. *)
Definition settled (st : Button) : Prop :=
  if loading st
  then buttonIcon_hidden st = true
       /\ buttonLabel_textContent st = "Synthesizing Prompt..."
  else buttonIcon_hidden st = false
       /\ buttonLabel_textContent st = "Generate Perfect Prompt".

Lemma step_loading (st : Button) (e : Event) :
  loading (step st e) = busy_after [e] (loading st).
Proof.
  destruct e as [[|]|[|]], st as [[|] h l]; reflexivity.
Qed.

Lemma run_loading (evs : list Event) (st : Button) :
  loading (run evs st) = busy_after evs (loading st).
Proof.
  revert st. induction evs as [|e evs IH]; intros st; [reflexivity |].
  change (run (e :: evs) st) with (run evs (step st e)).
  rewrite IH, step_loading. destruct e as [[|]|[|]]; reflexivity.
Qed.

Lemma run_settled (evs : list Event) (st : Button) :
  settled st -> settled (run evs st).
Proof.
  revert st. induction evs as [|e evs IH]; intros st H; [exact H |].
  change (run (e :: evs) st) with (run evs (step st e)). apply IH.
  unfold settled in *. destruct e as [[|]|[|]], st as [[|] h l]; simpl in *;
    auto.
Qed.

(** After any sequence of request events the button is busy exactly when
    the last event from the form was the start of a request: the flag is
    not a count of the requests in flight.  A busy button shows the busy
    label and hides its icon, and a button that has been busy and is not
    any more shows the idle label and its icon; events from other
    elements change nothing. *)
Theorem busy_follows_last_form_event (evs : list Event) (iconHidden : bool)
    (label : string) :
  let st := run evs (start iconHidden label) in
  loading st = busy_after evs false
  /\ (loading st = true ->
      buttonIcon_hidden st = true
      /\ buttonLabel_textContent st = "Synthesizing Prompt...")
  /\ (loading st = false ->
      if existsb (fun e => match e with BeforeRequest true => true | _ => false end)
           evs
      then buttonIcon_hidden st = false
           /\ buttonLabel_textContent st = "Generate Perfect Prompt"
      else buttonIcon_hidden st = iconHidden
           /\ buttonLabel_textContent st = label).
Proof.
  cbn zeta. split; [apply run_loading |].
  generalize (eq_refl (loading (start iconHidden label))).
  unfold start at 2. cbn [loading].
  assert (G : forall st,
            loading st = false ->
            let st' := run evs st in
            (loading st' = true -> settled st')
            /\ (loading st' = false ->
                if existsb (fun e => match e with
                                     | BeforeRequest true => true
                                     | _ => false
                                     end) evs
                then settled st'
                else st' = st)).
  { induction evs as [|e evs IH]; intros st Hl; cbn zeta.
    - simpl. split; [congruence | reflexivity].
    - change (run (e :: evs) st) with (run evs (step st e)).
      destruct e as [[|]|[|]]; cbn [step existsb orb].
      + assert (Hs : settled (setButtonLoading true st)).
        { unfold settled, setButtonLoading. rewrite Hl. simpl. auto. }
        pose proof (run_settled evs _ Hs) as Hrun. auto.
      + apply IH, Hl.
      + assert (E : setButtonLoading false st = st).
        { unfold setButtonLoading. rewrite Hl. reflexivity. }
        rewrite E. apply IH, Hl.
      + apply IH, Hl. }
  intros Hl. destruct (G (start iconHidden label) Hl) as [G1 G2].
  split.
  - intros H. specialize (G1 H). unfold settled in G1. rewrite H in G1. exact G1.
  - intros H. specialize (G2 H).
    destruct (existsb _ evs).
    + unfold settled in G2. rewrite H in G2. exact G2.
    + rewrite G2. split; reflexivity.
Qed.

(** Two requests of the form that overlap: the first answer ends the
    busy state while the second request is still in flight. *)
Example overlapping_requests :
  loading (run [BeforeRequest true; BeforeRequest true; AfterRequest true]
             (start false "Generate Perfect Prompt")) = false.
Proof. reflexivity. Qed.

End BusyButton.

(** ** Copy to clipboard (source lines 258-278) *)

Module CopyButtons.

(** A control of class [copy-button]: its [data-copy-target] attribute
    ([None] when it is missing) and the text of the [copy-label] element
    inside it ([None] when there is no such element). *)
Record CopyButton := { copyTarget : option string; copyLabel : option string }.

(** A timer set by the callback of [writeText]: when it is due, and the
    button whose label element its callback holds. *)
Record Timer := { due : nat; button : nat }.

Record Page := {
  texts : gmap string string;        (* [textContent] of the elements, by id *)
  copyButtons : list CopyButton;     (* in document order *)
  written : list string;             (* the arguments of [writeText] so far *)
  writing : list (option string);    (* targets of the writes not settled *)
  clock : nat;
  timers : list Timer
}.

(** What a template literal puts in the place of [${v}]. *)
Definition to_text (v : option string) : string :=
  match v with
  | Some s => s
  | None => "undefined"
  end.

(** The quotation mark. *)
Definition quote : string := String "034"%char EmptyString.

(** [`.copy-button[data-copy-target="${target}"]`], the text handed to
    [querySelectorAll]. *)
Definition copy_selector (target : option string) : string :=
  ".copy-button[data-copy-target=" +:+ quote +:+ to_text target +:+ quote +:+ "]".

(** The button carries a [data-copy-target] attribute whose value is the
    text of [target]. *)
Definition has_target (target : option string) (b : CopyButton) : bool :=
  match copyTarget b with
  | Some t => String.eqb t (to_text target)
  | None => false
  end.

(** Characters that stand for themselves between the quotation marks of a
    selector: the printable ASCII characters other than the quotation mark
    and the backslash.  (A quotation mark ends the quoted text, a backslash
    starts an escape, a line break makes the text invalid.) *)
Definition css_plain_char (c : ascii) : bool :=
  let n := nat_of_ascii c in
  Nat.leb 32 n && Nat.ltb n 127 && negb (Nat.eqb n 34) && negb (Nat.eqb n 92).

Fixpoint css_plain (s : string) : bool :=
  match s with
  | EmptyString => true
  | String c s' => css_plain_char c && css_plain s'
  end.

(** [label.textContent = txt] for the label of [b], if [b] has one. *)
Definition relabel (txt : string) (b : CopyButton) : CopyButton :=
  {| copyTarget := copyTarget b;
     copyLabel := match copyLabel b with
                  | Some _ => Some txt
                  | None => None
                  end |}.

(** [handleCopy] up to the call of [writeText]: without the text element
    it returns at once.  The Clipboard API is taken to be present. *)
Definition handleCopy (target : option string) (st : Page) : Page :=
  match texts st !! (to_text target +:+ "-text") with
  | None => st
  | Some content =>
      {| texts := texts st; copyButtons := copyButtons st;
         written := written st ++ [content];
         writing := writing st ++ [target];
         clock := clock st; timers := timers st |}
  end.

(** [buttons.forEach(...)] over the buttons that [sel] selects: each of
    them that has a label shows ["Copied!"] and gets a timer of its own. *)
Definition show_copied (sel : CopyButton -> bool) (st : Page) : Page :=
  let shown b := if sel b then relabel "Copied!" b else b in
  let timer k b :=
    if sel b
    then match copyLabel b with
         | Some _ => Some {| due := clock st + 2000; button := k |}
         | None => None
         end
    else None in
  {| texts := texts st;
     copyButtons := map shown (copyButtons st);
     written := written st; writing := writing st; clock := clock st;
     timers := timers st ++ omap id (imap timer (copyButtons st)) |}.

(** Due timers run in the order of their due times. *)
Fixpoint insert_by_due (t : Timer) (l : list Timer) : list Timer :=
  match l with
  | [] => [t]
  | u :: l' =>
      if Nat.ltb (due u) (due t) then u :: insert_by_due t l'
      else t :: u :: l'
  end.

Definition by_due (l : list Timer) : list Timer := foldr insert_by_due [] l.

(** The callback of a timer: the label it holds shows ["Copy"] again. *)
Definition revert (bs : list CopyButton) (t : Timer) : list CopyButton :=
  alter (relabel "Copy") (button t) bs.

Definition elapse (dt : nat) (st : Page) : Page :=
  let now := clock st + dt in
  let ready := filter (fun t => due t <= now) (timers st) in
  {| texts := texts st;
     copyButtons := foldl revert (copyButtons st) (by_due ready);
     written := written st; writing := writing st; clock := now;
     timers := filter (fun t => ~ due t <= now) (timers st) |}.

Inductive Event :=
| Click (n : nat)                 (* a click inside the [n]-th copy button *)
| Settle (i : nat) (ok : bool)    (* the [i]-th open write succeeds or fails *)
| Elapse (dt : nat).

Section WithSelectors.

(** The browser's reading of a selector over the copy buttons of the
    page: [None] when it rejects the text with a [SyntaxError], otherwise
    the test that tells which buttons the selector matches.  The page
    keeps the labels of the copy buttons only, which are all that a
    selector of the form [.copy-button[...]] can match. *)
Variable querySelectorAll : string -> option (CopyButton -> bool).

(** The callback that runs when the write has succeeded.  When the
    selector is rejected the callback ends there, with no label touched. *)
Definition copied (target : option string) (st : Page) : Page :=
  match querySelectorAll (copy_selector target) with
  | Some sel => show_copied sel st
  | None => st
  end.

Definition step (st : Page) (e : Event) : Page :=
  match e with
  | Click n =>
      match copyButtons st !! n with
      | Some b => handleCopy (copyTarget b) st
      | None => st
      end
  | Settle i ok =>
      match writing st !! i with
      | Some target =>
          let st := {| texts := texts st; copyButtons := copyButtons st;
                       written := written st;
                       writing := delete i (writing st);
                       clock := clock st; timers := timers st |} in
          if ok then copied target st else st
      | None => st
      end
  | Elapse dt => elapse dt st
  end.

Definition run (evs : list Event) (st : Page) : Page := foldl step st evs.

(** What the theorems below ask of the browser: a selector built from a
    target made of plain characters is accepted and matches the buttons
    whose attribute is that target.  Nothing is asked for other targets,
    whose text changes the syntax of the selector. *)
Definition attribute_selectors : Prop :=
  forall target, css_plain (to_text target) = true ->
    exists sel, querySelectorAll (copy_selector target) = Some sel
                /\ forall b, sel b = has_target target b.

End WithSelectors.

(** A reading of selectors for the examples: a button is matched when its
    attribute is made of plain characters and the selector is the one built
    from that attribute. *)
Definition plain_selectors (selector : string) : option (CopyButton -> bool) :=
  Some (fun b => match copyTarget b with
                 | Some t => css_plain t && String.eqb selector (copy_selector (Some t))
                 | None => false
                 end).

Lemma elem_of_insert_by_due (t u : Timer) (l : list Timer) :
  u ∈ insert_by_due t l <-> u = t \/ u ∈ l.
Proof.
  induction l as [|v l IH]; simpl.
  - rewrite list_elem_of_singleton, elem_of_nil. tauto.
  - destruct (Nat.ltb (due v) (due t)).
    + rewrite !elem_of_cons, IH. tauto.
    + rewrite !elem_of_cons. tauto.
Qed.

Lemma elem_of_by_due (u : Timer) (l : list Timer) : u ∈ by_due l <-> u ∈ l.
Proof.
  induction l as [|t l IH]; simpl; [reflexivity |].
  rewrite elem_of_insert_by_due, elem_of_cons, IH. reflexivity.
Qed.

Lemma relabel_relabel (txt txt' : string) (b : CopyButton) :
  relabel txt (relabel txt' b) = relabel txt b.
Proof. unfold relabel. destruct b as [t [l|]]; reflexivity. Qed.

(** What a run of timer callbacks does to the [k]-th button. *)
Lemma revert_all_lookup (ts : list Timer) (bs : list CopyButton) (k : nat) :
  foldl revert bs ts !! k
  = (if decide (k ∈ map button ts) then relabel "Copy" else fun b => b)
      <$> bs !! k.
Proof.
  revert bs. induction ts as [|t ts IH]; intros bs.
  - cbn [foldl map].
    destruct (decide (k ∈ [])) as [H|_]; [inversion H |].
    destruct (bs !! k); reflexivity.
  - cbn [foldl map]. rewrite IH. unfold revert.
    destruct (decide (button t = k)) as [E|Hne].
    + subst k. rewrite list_lookup_alter_eq.
      destruct (decide (button t ∈ button t :: map button ts)) as [_|Hn];
        [| exfalso; apply Hn; left].
      destruct (bs !! button t) as [b|]; [| reflexivity]. cbn [fmap option_fmap option_map].
      destruct (decide (button t ∈ map button ts));
        [rewrite relabel_relabel |]; reflexivity.
    + rewrite list_lookup_alter_ne by exact Hne.
      destruct (decide (k ∈ map button ts)) as [Hin|Hnin],
               (decide (k ∈ button t :: map button ts)) as [Hin'|Hnin'];
        try reflexivity.
      * exfalso. apply Hnin'. right. exact Hin.
      * exfalso. apply elem_of_cons in Hin'. destruct Hin'; congruence.
Qed.

Lemma show_copied_timer (sel : CopyButton -> bool) (st : Page) (k : nat)
    (b : CopyButton) (txt : string) :
  copyButtons st !! k = Some b -> sel b = true ->
  copyLabel b = Some txt ->
  {| due := clock st + 2000; button := k |} ∈ timers (show_copied sel st).
Proof.
  intros Hk Hs Hl. unfold show_copied. cbn [timers].
  apply elem_of_app. right. apply list_elem_of_omap.
  exists (Some {| due := clock st + 2000; button := k |}).
  split; [| reflexivity].
  apply list_elem_of_lookup. exists k.
  rewrite list_lookup_imap, Hk. simpl. rewrite Hs, Hl. reflexivity.
Qed.

Lemma show_copied_lookup (sel : CopyButton -> bool) (st : Page) (k : nat) :
  copyButtons (show_copied sel st) !! k
  = (fun b => if sel b then relabel "Copied!" b else b)
      <$> copyButtons st !! k.
Proof. unfold show_copied. cbn [copyButtons]. apply list_lookup_fmap. Qed.

Lemma handleCopy_found (target : option string) (content : string)
    (st : Page) :
  texts st !! (to_text target +:+ "-text") = Some content ->
  copyButtons (handleCopy target st) = copyButtons st
  /\ timers (handleCopy target st) = timers st
  /\ clock (handleCopy target st) = clock st
  /\ texts (handleCopy target st) = texts st.
Proof. intros H. unfold handleCopy. rewrite H. auto. Qed.

Lemma elapse_lookup (dt : nat) (st : Page) (k : nat) :
  copyButtons (elapse dt st) !! k
  = (if decide (k ∈ map button
                      (by_due (filter (fun t => due t <= clock st + dt)
                                 (timers st))))
     then relabel "Copy" else fun b => b) <$> copyButtons st !! k.
Proof. unfold elapse. cbn [copyButtons]. apply revert_all_lookup. Qed.

(** For a plain target the callback is [show_copied] over the buttons
    that carry the target. *)
Lemma copied_plain (q : string -> option (CopyButton -> bool))
    (target : option string) :
  attribute_selectors q -> css_plain (to_text target) = true ->
  exists sel, (forall st, copied q target st = show_copied sel st)
              /\ forall b, sel b = has_target target b.
Proof.
  intros Hq Hp. destruct (Hq target Hp) as (sel & E & Hsel).
  exists sel. split; [| exact Hsel].
  intros st. unfold copied. rewrite E. reflexivity.
Qed.

(** A selector that the browser rejects leaves every label as it is. *)
Remark copied_rejected (q : string -> option (CopyButton -> bool))
    (target : option string) (st : Page) :
  q (copy_selector target) = None -> copied q target st = st.
Proof. intros E. unfold copied. rewrite E. reflexivity. Qed.

(** *** The reading of selectors used in the examples *)

Lemma length_append (s t : string) :
  String.length (s +:+ t) = String.length s + String.length t.
Proof.
  induction s as [|c s IH]; [reflexivity |].
  change (String c s +:+ t) with (String c (s +:+ t)).
  cbn [String.length]. rewrite IH. reflexivity.
Qed.

Lemma append_inj_r (s t u : string) : s +:+ u = t +:+ u -> s = t.
Proof.
  revert t. induction s as [|c s IH]; intros [|d t] E.
  - reflexivity.
  - apply (f_equal String.length) in E. rewrite !length_append in E.
    cbn [String.length] in E. lia.
  - apply (f_equal String.length) in E. rewrite !length_append in E.
    cbn [String.length] in E. lia.
  - change (String c (s +:+ u) = String d (t +:+ u)) in E.
    injection E as -> E. f_equal. apply IH. exact E.
Qed.

Lemma copy_selector_inj (t u : option string) :
  copy_selector t = copy_selector u -> to_text t = to_text u.
Proof.
  unfold copy_selector. intros E.
  apply String.app_inj in E. apply String.app_inj in E.
  apply append_inj_r in E. exact E.
Qed.

Lemma plain_selectors_attribute : attribute_selectors plain_selectors.
Proof.
  intros target Hp. unfold plain_selectors. eexists. split; [reflexivity |].
  intros b. cbn beta. unfold has_target.
  destruct (copyTarget b) as [t|]; [| reflexivity].
  destruct (String.eqb_spec t (to_text target)) as [->|Hne].
  - rewrite Hp.
    replace (copy_selector (Some (to_text target))) with (copy_selector target)
      by reflexivity.
    rewrite String.eqb_refl. reflexivity.
  - destruct (String.eqb_spec (copy_selector target) (copy_selector (Some t)))
      as [E|_]; [| apply andb_false_r].
    apply copy_selector_inj in E. cbn [to_text] in E. congruence.
Qed.

(** A copy whose text element exists hands the element's text to
    the clipboard and shows nothing yet.  For a target made of plain
    characters, in a browser that reads its selector as the attribute
    selector it is: when the write has succeeded, every button with that
    target shows ["Copied!"] on its label and the other buttons are as
    before; after 2000 ms or more without further events, every button
    with that target shows ["Copy"]. *)
Theorem copy_shows_then_reverts
    (querySelectorAll : string -> option (CopyButton -> bool))
    (target : option string) (content : string) (st : Page) :
  attribute_selectors querySelectorAll ->
  css_plain (to_text target) = true ->
  texts st !! (to_text target +:+ "-text") = Some content ->
  let st1 := handleCopy target st in
  let st2 := copied querySelectorAll target st1 in
  written st1 = written st ++ [content]
  /\ copyButtons st1 = copyButtons st
  /\ (forall k b, copyButtons st !! k = Some b ->
        copyButtons st2 !! k
        = Some (if has_target target b then relabel "Copied!" b else b))
  /\ (forall w k b, 2000 <= w ->
        copyButtons st !! k = Some b -> has_target target b = true ->
        copyButtons (elapse w st2) !! k = Some (relabel "Copy" b)).
Proof.
  intros Hq Hp Htext st1 st2. subst st1 st2.
  destruct (copied_plain querySelectorAll target Hq Hp) as (sel & Hc & Hsel).
  rewrite Hc. unfold handleCopy. rewrite Htext.
  set (st1 := {| texts := texts st; copyButtons := copyButtons st;
                 written := written st ++ [content];
                 writing := writing st ++ [target];
                 clock := clock st; timers := timers st |}).
  split; [reflexivity |]. split; [reflexivity |].
  assert (Hshown : forall k b, copyButtons st !! k = Some b ->
            copyButtons (show_copied sel st1) !! k
            = Some (if has_target target b then relabel "Copied!" b else b)).
  { intros k b Hk. rewrite show_copied_lookup. subst st1. cbn [copyButtons].
    rewrite Hk. cbn. rewrite Hsel. reflexivity. }
  split; [exact Hshown |].
  intros w k b Hw Hk Hs. unfold elapse. cbn [copyButtons].
  rewrite revert_all_lookup, (Hshown k b Hk), Hs. simpl.
  destruct (copyLabel b) as [txt|] eqn:El.
  - rewrite decide_True; [rewrite relabel_relabel; reflexivity |].
    apply list_elem_of_fmap.
    exists {| due := clock st1 + 2000; button := k |}.
    split; [reflexivity |].
    apply elem_of_by_due, list_elem_of_filter. split.
    + subst st1. unfold show_copied. cbn [clock due]. lia.
    + apply (show_copied_timer sel st1 k b txt);
        [exact Hk | rewrite Hsel; exact Hs | exact El].
  - assert (E : forall txt, relabel txt b = b).
    { intros txt. unfold relabel. rewrite El. destruct b. simpl in El.
      subst. reflexivity. }
    destruct (decide _); rewrite ?relabel_relabel, !E; reflexivity.
Qed.

Definition result_page : Page :=
  {| texts := {["prompt-text" := "a castle at dusk"]};
     copyButtons :=
       [{| copyTarget := Some "prompt"; copyLabel := Some "Copy" |};
        {| copyTarget := Some "negative"; copyLabel := Some "Copy" |};
        {| copyTarget := Some "prompt"; copyLabel := Some "Copy" |}];
     written := []; writing := []; clock := 0; timers := [] |}.

Lemma copy_shows_then_reverts_witness :
  let target := Some "prompt" in
  let st1 := handleCopy target result_page in
  let st2 := copied plain_selectors target st1 in
  written st1 = written result_page ++ ["a castle at dusk"]
  /\ copyButtons st1 = copyButtons result_page
  /\ (forall k b, copyButtons result_page !! k = Some b ->
        copyButtons st2 !! k
        = Some (if has_target target b then relabel "Copied!" b else b))
  /\ (forall w k b, 2000 <= w ->
        copyButtons result_page !! k = Some b -> has_target target b = true ->
        copyButtons (elapse w st2) !! k = Some (relabel "Copy" b)).
Proof.
  apply (copy_shows_then_reverts plain_selectors (Some "prompt")
           "a castle at dusk" result_page).
  - exact plain_selectors_attribute.
  - reflexivity.
  - vm_compute. reflexivity.
Defined.

(** A second copy does not restart the wait of the first.  For a
    target made of plain characters, in a browser that reads its selector
    as the attribute selector it is: with copies at times 0 and [d],
    [0 < d < 2000], the label shows ["Copy"] again at time 2000, when the
    first timer fires, while the timer of the second copy is still to
    come. *)
Theorem second_copy_does_not_extend
    (querySelectorAll : string -> option (CopyButton -> bool))
    (target : option string)
    (content txt : string) (st : Page) (k : nat) (b : CopyButton) (d : nat) :
  attribute_selectors querySelectorAll ->
  css_plain (to_text target) = true ->
  texts st !! (to_text target +:+ "-text") = Some content ->
  copyButtons st !! k = Some b -> has_target target b = true ->
  copyLabel b = Some txt -> 0 < d < 2000 ->
  let once := copied querySelectorAll target (handleCopy target st) in
  let again := copied querySelectorAll target
                 (handleCopy target (elapse d once)) in
  copyButtons again !! k = Some (relabel "Copied!" b)
  /\ copyButtons (elapse (2000 - d) again) !! k = Some (relabel "Copy" b)
  /\ {| due := clock st + d + 2000; button := k |}
       ∈ timers (elapse (2000 - d) again).
Proof.
  intros Hq Hp Htext Hk Ht Hl Hd once again. subst once again.
  destruct (copied_plain querySelectorAll target Hq Hp) as (sel & Hc & Hsel).
  rewrite !Hc.
  set (once := show_copied sel (handleCopy target st)).
  set (again := show_copied sel (handleCopy target (elapse d once))).
  assert (Hs : sel b = true) by (rewrite Hsel; exact Ht).
  destruct (handleCopy_found target content st Htext) as (Eb & _ & Ec & _).
  assert (Hs' : forall x, sel (relabel x b) = true).
  { intros x. rewrite Hsel. unfold has_target, relabel in *. cbn. exact Ht. }
  assert (Hl' : forall x, copyLabel (relabel x b) = Some x).
  { intros x. unfold relabel. cbn. rewrite Hl. reflexivity. }
  (* after the first copy *)
  assert (H1 : copyButtons once !! k = Some (relabel "Copied!" b)).
  { subst once. rewrite show_copied_lookup, Eb, Hk. simpl. rewrite Hs.
    reflexivity. }
  assert (T1 : {| due := clock st + 2000; button := k |} ∈ timers once).
  { subst once. rewrite <- Ec.
    apply (show_copied_timer sel (handleCopy target st) k b txt);
      [rewrite Eb; exact Hk | exact Hs | exact Hl]. }
  assert (Conce : clock once = clock st) by (subst once; exact Ec).
  (* the pause *)
  set (e1 := elapse d once) in *.
  assert (He1 : exists x, copyButtons e1 !! k = Some (relabel x b)).
  { subst e1. rewrite elapse_lookup, H1. simpl.
    destruct (decide _); [rewrite relabel_relabel |]; eauto. }
  destruct He1 as [x He1].
  assert (T1e : {| due := clock st + 2000; button := k |} ∈ timers e1).
  { subst e1. unfold elapse. cbn [timers]. apply list_elem_of_filter.
    split; [cbn [due]; lia | exact T1]. }
  assert (Ce1 : clock e1 = clock st + d).
  { subst e1. unfold elapse. cbn [clock]. lia. }
  assert (Te1 : texts e1 !! (to_text target +:+ "-text") = Some content).
  { subst e1 once. unfold elapse, show_copied. cbn [texts].
    destruct (handleCopy_found target content st Htext) as (_ & _ & _ & ->).
    exact Htext. }
  (* the second copy *)
  destruct (handleCopy_found target content e1 Te1) as (Eb2 & Et2 & Ec2 & _).
  assert (H2 : copyButtons again !! k = Some (relabel "Copied!" b)).
  { subst again. rewrite show_copied_lookup, Eb2, He1. simpl.
    rewrite Hs', relabel_relabel. reflexivity. }
  assert (T1a : {| due := clock st + 2000; button := k |} ∈ timers again).
  { subst again. unfold show_copied. cbn [timers]. apply elem_of_app. left.
    rewrite Et2. exact T1e. }
  assert (T2a : {| due := clock st + d + 2000; button := k |} ∈ timers again).
  { subst again. rewrite <- Ce1, <- Ec2.
    apply (show_copied_timer sel (handleCopy target e1) k (relabel x b) x);
      [rewrite Eb2; exact He1 | apply Hs' | apply Hl']. }
  assert (Ca : clock again = clock st + d).
  { subst again. unfold show_copied. cbn [clock]. rewrite Ec2. exact Ce1. }
  split; [exact H2 |]. split.
  - rewrite elapse_lookup, H2. simpl. rewrite decide_True.
    + rewrite relabel_relabel. reflexivity.
    + apply list_elem_of_fmap.
      exists {| due := clock st + 2000; button := k |}.
      split; [reflexivity |].
      apply elem_of_by_due, list_elem_of_filter.
      split; [cbn [due]; lia | exact T1a].
  - unfold elapse. cbn [timers]. apply list_elem_of_filter.
    split; [cbn [due]; lia | exact T2a].
Qed.

Lemma second_copy_does_not_extend_witness :
  let b := {| copyTarget := Some "prompt"; copyLabel := Some "Copy" |} in
  let once := copied plain_selectors (Some "prompt")
                (handleCopy (Some "prompt") result_page) in
  let again := copied plain_selectors (Some "prompt")
                 (handleCopy (Some "prompt") (elapse 1500 once)) in
  copyButtons again !! 0 = Some (relabel "Copied!" b)
  /\ copyButtons (elapse (2000 - 1500) again) !! 0 = Some (relabel "Copy" b)
  /\ {| due := clock result_page + 1500 + 2000; button := 0 |}
       ∈ timers (elapse (2000 - 1500) again).
Proof.
  apply (second_copy_does_not_extend plain_selectors (Some "prompt")
           "a castle at dusk" "Copy" result_page 0
           {| copyTarget := Some "prompt"; copyLabel := Some "Copy" |} 1500);
    [exact plain_selectors_attribute | reflexivity | vm_compute; reflexivity
    | reflexivity | reflexivity | reflexivity | lia].
Defined.

(** The labels on the page of the example, step by step. *)
Example copy_scenario :
  map copyLabel
    (copyButtons (run plain_selectors
                    [Click 0; Settle 0 true; Elapse 1999] result_page))
  = [Some "Copied!"; Some "Copy"; Some "Copied!"]
  /\ map copyLabel
       (copyButtons (run plain_selectors
                       [Click 0; Settle 0 true; Elapse 2000] result_page))
     = [Some "Copy"; Some "Copy"; Some "Copy"].
Proof. split; vm_compute; reflexivity. Qed.

End CopyButtons.
